(** * The on-disk configuration cache of the workbench

    A shallow embedding of
    [src/vs/workbench/services/configuration/node/configurationCache.ts]
    (classes [ConfigurationCache] and [CachedConfiguration]) and the
    properties of its three operations [read], [write] and [remove].

    The two classes are embedded method by method: a promise is a
    computation over an explicit world ([Async]), [await], [try]/[catch]
    and [then] are combinators on it, and the private handle map is a
    [gmap] threaded through the calls.  What the file imports ([join] of
    [vs/base/common/path], the primitives of [vs/base/node/pfs], the types
    [ConfigurationKey] and [INativeEnvironmentService]) is modelled in the
    first parts: a hierarchical store addressed by resolved paths, whose
    five primitives fail as the state of the store demands and may
    additionally be hit by an I/O error injected by the environment.

    A JavaScript string is a sequence of UTF-16 code units ([jsstring]); a
    file holds bytes ([string], one character per byte).  Text goes to the
    disk as UTF-8 and comes back through [Buffer.toString], which decodes
    UTF-8; the two are not inverse to each other on every string.  Path
    strings, types and keys are kept as [string]. *)

From Stdlib Require Import String Ascii List NArith Lia.
From stdpp Require Import gmap strings list fin_maps.

Open Scope string_scope.
Open Scope list_scope.

(* ===================================================================== *)
(** * Strings and buffers *)
(* ===================================================================== *)

(** A JavaScript string: its UTF-16 code units, each a number below
    [2^16] (a larger number stands for its remainder). *)
Abbreviation jsstring := (list N).

(** The JavaScript string whose code units are the character codes of
    [s]: for an ASCII literal, the string it spells. *)
Definition js (s : string) : jsstring := map N_of_ascii (list_ascii_of_string s).

(** Modelled from the spec: the byte buffers of the platform, which are
    not under src/.  The spec has a cached blob be "a single UTF-8 text
    payload": a string is written as its UTF-8 encoding, an unpaired
    surrogate going out as U+FFFD, and [toString] decodes UTF-8, every
    ill-formed byte sequence coming back as U+FFFD. *)
Module Buffer.

(** A buffer as numbers below 256, and back. *)
Definition bytes (b : string) : list N := map N_of_ascii (list_ascii_of_string b).
Definition of_bytes (l : list N) : string := string_of_list_ascii (map ascii_of_N l).

(** High (leading) and low (trailing) surrogate code units. *)
Definition is_high (u : N) : bool := ((55296 <=? u) && (u <=? 56319))%N.
Definition is_low (u : N) : bool := ((56320 <=? u) && (u <=? 57343))%N.

(** The code points a string spells: a surrogate pair is one code point
    above [0xFFFF], an unpaired surrogate is replaced by [0xFFFD]. *)
Fixpoint code_points (s : jsstring) : list N :=
  match s with
  | [] => []
  | u :: rest =>
      let u := (u mod 65536)%N in
      if is_high u then
        match rest with
        | v :: rest' =>
            let v := (v mod 65536)%N in
            if is_low v
            then (65536 + (u - 55296) * 1024 + (v - 56320))%N :: code_points rest'
            else 65533%N :: code_points rest
        | [] => [65533%N]
        end
      else if is_low u then 65533%N :: code_points rest
      else u :: code_points rest
  end.

(** The UTF-8 bytes of a code point: one to four of them. *)
Definition utf8 (cp : N) : list N :=
  (if cp <? 128 then [cp]
   else if cp <? 2048 then [192 + cp / 64; 128 + cp mod 64]
   else if cp <? 65536 then [224 + cp / 4096; 128 + (cp / 64) mod 64; 128 + cp mod 64]
   else [240 + cp / 262144; 128 + (cp / 4096) mod 64; 128 + (cp / 64) mod 64;
         128 + cp mod 64])%N.

(** The buffer written for a string. *)
Definition from_string (s : jsstring) : string :=
  of_bytes (flat_map utf8 (code_points s)).

(** The state of the UTF-8 decoder: the code point gathered so far, how
    many continuation bytes are still needed, and the range the next one
    has to lie in. *)
Record decoder : Type := mkDecoder {
  code_point : N;
  needed : nat;
  lower : N;
  upper : N
}.

Definition idle : decoder := mkDecoder 0 0 128 191.

(** A byte met while no sequence is open: a character of its own, the
    start of a sequence, or an error. *)
Definition lead (b : N) : list N * decoder :=
  (if b <? 128 then ([b], idle)
   else if (194 <=? b) && (b <=? 223) then ([], mkDecoder (b - 192) 1 128 191)
   else if (224 <=? b) && (b <=? 239)
   then ([], mkDecoder (b - 224) 2 (if b =? 224 then 160 else 128)
                                   (if b =? 237 then 159 else 191))
   else if (240 <=? b) && (b <=? 244)
   then ([], mkDecoder (b - 240) 3 (if b =? 240 then 144 else 128)
                                   (if b =? 244 then 143 else 191))
   else ([65533], idle))%N.

(** One byte: what is emitted, and the state after it.  A byte that does
    not continue the open sequence ends it with U+FFFD and is looked at
    again as a leading byte. *)
Definition step (st : decoder) (b : N) : list N * decoder :=
  match needed st with
  | O => lead b
  | S n =>
      if ((lower st <=? b) && (b <=? upper st))%N
      then let cp := (code_point st * 64 + (b - 128))%N in
           match n with
           | O => ([cp], idle)
           | S _ => ([], mkDecoder cp n 128 191)
           end
      else let (out, st') := lead b in (65533%N :: out, st')
  end.

(** The code points of a byte sequence; a sequence left open at the end
    gives U+FFFD. *)
Fixpoint decode (st : decoder) (bs : list N) : list N :=
  match bs with
  | [] => match needed st with O => [] | S _ => [65533%N] end
  | b :: bs' => let (out, st') := step st b in out ++ decode st' bs'
  end.

(** The code units of a code point: itself, or a surrogate pair. *)
Definition utf16 (cp : N) : list N :=
  (if cp <? 65536 then [cp]
   else [55296 + (cp - 65536) / 1024; 56320 + (cp - 65536) mod 1024])%N.

(** [buffer.toString()] *)
Definition toString (b : string) : jsstring :=
  flat_map utf16 (decode idle (bytes b)).

End Buffer.

(** A well-formed string: code units below [2^16], every surrogate part
    of a pair. *)
Fixpoint well_formed (s : jsstring) : bool :=
  match s with
  | [] => true
  | u :: rest =>
      (u <? 65536)%N
      && (if Buffer.is_high u then
            match rest with
            | v :: rest' => (v <? 65536)%N && Buffer.is_low v && well_formed rest'
            | [] => false
            end
          else negb (Buffer.is_low u) && well_formed rest)
  end.

(** A code point that UTF-8 encodes: below [0x110000] and no surrogate. *)
Definition scalar (cp : N) : bool :=
  ((cp <? 1114112) && negb ((55296 <=? cp) && (cp <=? 57343)))%N.

(* ===================================================================== *)
(** * Paths *)
(* ===================================================================== *)

(** A location of the store: the names from the root down to the entry.
    The empty list is the root directory. *)
Abbreviation location := (list string).

(** Modelled from the spec: how the file system, which is not under src/,
    reads a path string.  Cuts the string at every ['/'].  The result is
    never empty:
    ["a/b"] gives [["a"; "b"]], ["/a"] gives [[""; "a"]], [""] gives [[""]]. *)
Fixpoint segments (s : string) : list string :=
  match s with
  | EmptyString => [EmptyString]
  | String c s' =>
      if Ascii.eqb c "/"%char then EmptyString :: segments s'
      else match segments s' with
           | seg :: rest => String c seg :: rest
           | [] => [String c EmptyString]
           end
  end.

(** Modelled from the spec: one step of the file system's path
    resolution.  Empty names and ["."] stay in place, [".."] climbs to the
    parent (the root is its own parent), every other name descends. *)
Definition walk (p : location) (seg : string) : location :=
  if decide (seg = "") then p
  else if decide (seg = ".") then p
  else if decide (seg = "..") then removelast p
  else p ++ [seg].

(** Modelled from the spec: the location a path string denotes, as the
    file system resolves it.  Every path is read from the root. *)
Definition resolve (s : string) : location := foldl walk [] (segments s).

(** Modelled from the spec: [join] of [vs/base/common/path], which is not
    under src/.  The spec asks for path-join semantics only: the storage
    path is composed of the base directory, a fixed subdirectory name and
    the key's namespace and identifier.  The non-empty arguments are put
    together with the separator ['/']; when nothing is left the result is
    ["."].  Resolving ["."], [".."] and repeated separators is left to
    [resolve], which sends a path and its normal form to the same
    location. *)
Definition join (parts : list string) : string :=
  let kept := filter (λ s : string, s ≠ "") parts in
  match kept with
  | [] => "."
  | _ => String.concat "/" kept
  end.

(* ===================================================================== *)
(** * The file system *)
(* ===================================================================== *)

(** What is recorded at a location: a regular file with its bytes, or a
    directory. *)
Inductive entry : Type :=
  | File (content : string)
  | Dir.

(** The errors an operation can reject with. *)
Inductive errno : Type :=
  | ENOENT | ENOTDIR | EISDIR | EEXIST | EACCES | EBUSY | ENOSPC | EIO.

(** How an asynchronous operation settles. *)
Inductive outcome (A : Type) : Type :=
  | Resolved (a : A)
  | Rejected (e : errno).
Arguments Resolved {A} a.
Arguments Rejected {A} e.

#[global] Instance entry_eq_dec : EqDecision entry.
Proof. solve_decision. Defined.
#[global] Instance errno_eq_dec : EqDecision errno.
Proof. solve_decision. Defined.
#[global] Instance outcome_eq_dec {A} `{EqDecision A} : EqDecision (outcome A).
Proof. solve_decision. Defined.

(** The entries below the root.  The root itself is always a directory. *)
Abbreviation Disk := (gmap (list string) entry).

(** The world an operation runs in: the disk, and the I/O errors the
    environment is going to inject.  Each primitive call consumes the head
    of [faults]: [Some e] makes the call reject with [e] and leave the disk
    alone, [None] (or an exhausted list) lets it run. *)
Record World : Type := mkWorld {
  disk : Disk;
  faults : list (option errno)
}.

(** An asynchronous computation: run in a world, it settles and leaves a
    world behind. *)
Definition Async (A : Type) : Type := World → outcome A * World.

(** A promise that is resolved already; what an [async] function or a
    [then] handler returns with [return a]. *)
Definition resolved {A} (a : A) : Async A := λ w, (Resolved a, w).

(** [await]: the continuation runs on the resolved value, a rejection
    passes through. *)
Definition bind {A B} (m : Async A) (f : A → Async B) : Async B :=
  λ w, match m w with
       | (Resolved a, w') => f a w'
       | (Rejected e, w') => (Rejected e, w')
       end.

(** [try { m } catch (e) { handler e }] *)
Definition try_catch {A} (m : Async A) (handler : errno → Async A) : Async A :=
  λ w, match m w with
       | (Resolved a, w') => (Resolved a, w')
       | (Rejected e, w') => handler e w'
       end.

(** [m.then(onFulfilled, onRejected)]: [onRejected] sees the rejection of
    [m] only, not one of [onFulfilled]. *)
Definition then2 {A B} (m : Async A) (onFulfilled : A → Async B)
    (onRejected : errno → Async B) : Async B :=
  λ w, match m w with
       | (Resolved a, w') => onFulfilled a w'
       | (Rejected e, w') => onRejected e w'
       end.

Notation "'await' x ':=' m 'in' k" := (bind m (λ x, k))
  (at level 10, x name, m at level 100, k at level 200).

(** What is at a location: the root is a directory, everything else is
    what the disk records. *)
Definition entry_at (d : Disk) (p : location) : option entry :=
  match p with
  | [] => Some Dir
  | _ => d !! p
  end.

(** The bytes stored at a location, when a regular file is there. *)
Definition content_at (d : Disk) (p : location) : option string :=
  match entry_at d p with
  | Some (File c) => Some c
  | _ => None
  end.

(** A regular file is recorded at a location below the root. *)
Definition is_file (d : Disk) (p : location) : bool :=
  match d !! p with
  | Some (File _) => true
  | _ => false
  end.

(** No regular file sits on the way from [base] down along [todo]. *)
Fixpoint no_file_along (d : Disk) (base : location) (todo : list string) : bool :=
  match todo with
  | [] => true
  | seg :: todo' =>
      negb (is_file d (base ++ [seg])) && no_file_along d (base ++ [seg]) todo'
  end.

(** Modelled from the spec: a path that ends with a separator asks for a
    directory; a regular file does not answer to it. *)
Definition dir_only (path : string) : bool :=
  match rev (segments path) with
  | "" :: _ :: _ => true
  | _ => false
  end.

(** The error for a path at which nothing is recorded: a regular file on
    the way to it is not a directory, otherwise the entry is missing. *)
Definition missing (d : Disk) (p : location) : errno :=
  if no_file_along d [] p then ENOENT else ENOTDIR.

(** Something answers to the path: a directory, or a regular file when
    the path does not ask for a directory. *)
Definition present (d : Disk) (path : string) : bool :=
  match entry_at d (resolve path) with
  | Some (File _) => negb (dir_only path)
  | Some Dir => true
  | None => false
  end.

(** Modelled from the spec: what reading the file at a path gives: its
    bytes, when a regular file answers to the path. *)
Definition readable (d : Disk) (path : string) : outcome string :=
  match entry_at d (resolve path) with
  | Some (File c) => if dir_only path then Rejected ENOTDIR else Resolved c
  | Some Dir => Rejected EISDIR
  | None => Rejected (missing d (resolve path))
  end.

(** Modelled from the spec: whether a file can be written at a path:
    not when the path is or asks for a directory, or its parent is not
    one. *)
Definition writable (d : Disk) (path : string) : outcome unit :=
  let p := resolve path in
  match entry_at d p with
  | Some Dir => Rejected EISDIR
  | en =>
      match entry_at d (removelast p) with
      | Some Dir =>
          if dir_only path
          then Rejected (match en with Some _ => ENOTDIR | None => EISDIR end)
          else Resolved tt
      | Some (File _) => Rejected ENOTDIR
      | None => Rejected (missing d (removelast p))
      end
  end.

(** Modelled from the spec: the directory creation behind [mkdirp].
    Creates the directories along [todo] below [base], top down; a regular
    file in the way makes it fail, and the directories created before it
    stay. *)
Fixpoint mkdirp_walk (d : Disk) (base : location) (todo : list string)
    : outcome unit * Disk :=
  match todo with
  | [] => (Resolved tt, d)
  | seg :: todo' =>
      let p := base ++ [seg] in
      match d !! p with
      | Some (File _) => (Rejected (match todo' with [] => EEXIST | _ => ENOTDIR end), d)
      | Some Dir => mkdirp_walk d p todo'
      | None => mkdirp_walk (<[p := Dir]> d) p todo'
      end
  end.

(** Nothing is recorded at or below a location. *)
Definition nothing_below (d : Disk) (p : location) : bool :=
  bool_decide (map_Forall (λ (q : list string) (_ : entry), ¬ p `prefix_of` q) d).

(** The recursive delete cannot start: the path asks for a directory
    where a regular file is, or a regular file lies on the way to it. *)
Definition undeletable (d : Disk) (path : string) : bool :=
  match entry_at d (resolve path) with
  | Some (File _) => dir_only path
  | Some Dir => false
  | None => negb (no_file_along d [] (resolve path))
  end.

(** Modelled from the spec: the primitives of [vs/base/node/pfs], which is
    not under src/: read-whole-file, write-whole-file, check-existence,
    recursive-make-directory and recursive-remove, all asynchronous and
    fallible; deleting a path that does not exist is a no-op success. *)
Module pfs.

(** Modelled from the spec: a fallible primitive.  Runs [op] on the disk
    unless the environment injects an error. *)
Definition io {A} (op : Disk → outcome A * Disk) : Async A :=
  λ w, match faults w with
       | Some e :: rest => (Rejected e, mkWorld (disk w) rest)
       | None :: rest => let (r, d) := op (disk w) in (r, mkWorld d rest)
       | [] => let (r, d) := op (disk w) in (r, mkWorld d [])
       end.

(** Modelled from the spec: read-whole-file.  Gives the bytes of the
    file; fails when no regular file answers to the path. *)
Definition readFile (path : string) : Async string :=
  io (λ d, (readable d path, d)).

(** Modelled from the spec: write-whole-file.  Replaces the file's
    content by the UTF-8 encoding of the string, or creates the file;
    fails when the path is or asks for a directory, or its parent is not
    one. *)
Definition writeFile (path : string) (data : jsstring) : Async unit :=
  io (λ d, match writable d path with
           | Resolved _ =>
               (Resolved tt, <[resolve path := File (Buffer.from_string data)]> d)
           | Rejected e => (Rejected e, d)
           end).

(** Modelled from the spec: check-existence, of a file or a directory. *)
Definition exists_ (path : string) : Async bool :=
  io (λ d, (Resolved (present d path), d)).

(** Modelled from the spec: recursive-make-directory.  A failure keeps
    the directories made before it. *)
Definition mkdirp (path : string) : Async unit :=
  io (λ d, mkdirp_walk d [] (resolve path)).

(** Modelled from the spec: recursive-remove.  What is at or below the
    path is deleted; deleting a path that does not exist is a no-op
    success.  It fails when the delete cannot start. *)
Definition rimraf (path : string) : Async unit :=
  io (λ d, if undeletable d path then (Rejected ENOTDIR, d)
           else (Resolved tt,
                 filter (λ kv : list string * entry,
                           ¬ resolve path `prefix_of` kv.1) d)).

End pfs.

(* ===================================================================== *)
(** * configurationCache.ts *)
(* ===================================================================== *)

(** Modelled from the spec: the type [ConfigurationKey] of
    [configuration/common/configuration], which is not under src/.  A pair
    of a type, which names a namespace, and a key, an opaque identifier;
    both are strings, as the code uses them (in a string template, and
    compared with ['workspaces']). *)
Record ConfigurationKey : Type := mkKey {
  type : string;
  key : string
}.

#[global] Instance ConfigurationKey_eq_dec : EqDecision ConfigurationKey.
Proof. solve_decision. Defined.

(** Modelled from the spec: what the cache uses of
    [INativeEnvironmentService], which is not under src/: the base
    directory, a "user data path". *)
Record INativeEnvironmentService : Type := mkEnv {
  userDataPath : string
}.

Module CachedConfiguration.

Record t : Type := mk {
  cachedConfigurationFolderPath : string;
  cachedConfigurationFilePath : string
}.

(** The file name the namespace selects. *)
Definition fileName (type : string) : string :=
  if decide (type = "workspaces") then "workspace.json" else "configuration.json".

(** [constructor({ type, key }, environmentService)] *)
Definition new (k : ConfigurationKey) (environmentService : INativeEnvironmentService) : t :=
  let folder := join [userDataPath environmentService; "CachedConfigurations"; type k; key k] in
  {| cachedConfigurationFolderPath := folder;
     cachedConfigurationFilePath := join [folder; fileName (type k)] |}.

(** [async read()] *)
Definition read (this : t) : Async jsstring :=
  try_catch
    (await content := pfs.readFile (cachedConfigurationFilePath this) in
     resolved (Buffer.toString content))
    (λ _, resolved []).

(** [private createCachedFolder()] *)
Definition createCachedFolder (this : t) : Async bool :=
  bind
    (then2 (pfs.exists_ (cachedConfigurationFolderPath this))
           resolved
           (λ _, resolved false))
    (λ exists_ : bool,
       if exists_ then resolved exists_
       else then2 (pfs.mkdirp (cachedConfigurationFolderPath this))
                  (λ _, resolved true)
                  (λ _, resolved false)).

(** [async save(content)] *)
Definition save (this : t) (content : jsstring) : Async unit :=
  await created := createCachedFolder this in
  if created : bool then pfs.writeFile (cachedConfigurationFilePath this) content
  else resolved tt.

(** [remove()] *)
Definition remove (this : t) : Async unit :=
  pfs.rimraf (cachedConfigurationFolderPath this).

End CachedConfiguration.

#[global] Instance CachedConfiguration_eq_dec : EqDecision CachedConfiguration.t.
Proof. solve_decision. Defined.

Module ConfigurationCache.

Record t : Type := mk {
  cachedConfigurations : gmap string CachedConfiguration.t;
  environmentService : INativeEnvironmentService
}.

(** [new ConfigurationCache(environmentService)] *)
Definition new (environmentService : INativeEnvironmentService) : t :=
  {| cachedConfigurations := ∅; environmentService := environmentService |}.

(** The string a handle is memoized under. *)
Definition composite (k : ConfigurationKey) : string :=
  type k +:+ ":" +:+ key k.

(** [private getCachedConfiguration({ type, key })]: the handle, and the
    cache object after the call. *)
Definition getCachedConfiguration (k : ConfigurationKey) (this : t)
    : CachedConfiguration.t * t :=
  let k' := composite k in
  match cachedConfigurations this !! k' with
  | Some cachedConfiguration => (cachedConfiguration, this)
  | None =>
      let cachedConfiguration := CachedConfiguration.new k (environmentService this) in
      (cachedConfiguration,
       {| cachedConfigurations := <[k' := cachedConfiguration]> (cachedConfigurations this);
          environmentService := environmentService this |})
  end.

(** [read(key)] *)
Definition read (k : ConfigurationKey) (this : t) : Async jsstring * t :=
  let (h, this') := getCachedConfiguration k this in
  (CachedConfiguration.read h, this').

(** [write(key, content)] *)
Definition write (k : ConfigurationKey) (content : jsstring) (this : t) : Async unit * t :=
  let (h, this') := getCachedConfiguration k this in
  (CachedConfiguration.save h content, this').

(** [remove(key)] *)
Definition remove (k : ConfigurationKey) (this : t) : Async unit * t :=
  let (h, this') := getCachedConfiguration k this in
  (CachedConfiguration.remove h, this').

End ConfigurationCache.

(* ===================================================================== *)
(** * Running the cache *)
(* ===================================================================== *)

(** The cache object together with the world its operations run in. *)
Record State : Type := mkState {
  cache : ConfigurationCache.t;
  world : World
}.

(** A method call on the cache: the handle is looked up (and memoized)
    first, then the asynchronous operation runs to completion. *)
Definition call {A} (method : ConfigurationCache.t → Async A * ConfigurationCache.t)
    (s : State) : outcome A * State :=
  let (operation, cache') := method (cache s) in
  let (r, world') := operation (world s) in
  (r, mkState cache' world').

Definition read (k : ConfigurationKey) : State → outcome jsstring * State :=
  call (ConfigurationCache.read k).
Definition write (k : ConfigurationKey) (content : jsstring) : State → outcome unit * State :=
  call (ConfigurationCache.write k content).
Definition remove (k : ConfigurationKey) : State → outcome unit * State :=
  call (ConfigurationCache.remove k).

(** The handle the cache resolves a key to. *)
Definition handle_of (c : ConfigurationCache.t) (k : ConfigurationKey) : CachedConfiguration.t :=
  fst (ConfigurationCache.getCachedConfiguration k c).

(** Where a handle keeps its directory and its file. *)
Definition folder_location (h : CachedConfiguration.t) : location :=
  resolve (CachedConfiguration.cachedConfigurationFolderPath h).
Definition file_location (h : CachedConfiguration.t) : location :=
  resolve (CachedConfiguration.cachedConfigurationFilePath h).

(** A fresh process: an empty handle map over a given world. *)
Definition start (env : INativeEnvironmentService) (w : World) : State :=
  mkState (ConfigurationCache.new env) w.

(** One operation of the public interface, and histories of them. *)
Inductive Op : Type :=
  | OpRead (k : ConfigurationKey)
  | OpWrite (k : ConfigurationKey) (content : jsstring)
  | OpRemove (k : ConfigurationKey).

Definition op_key (o : Op) : ConfigurationKey :=
  match o with
  | OpRead k | OpWrite k _ | OpRemove k => k
  end.

(** Performs one operation and drops how it settled. *)
Definition exec (o : Op) (s : State) : State :=
  match o with
  | OpRead k => snd (read k s)
  | OpWrite k content => snd (write k content s)
  | OpRemove k => snd (remove k s)
  end.

(** Performs a history, oldest operation first. *)
Definition run (ops : list Op) (s : State) : State := foldl (λ s o, exec o s) s ops.

(** The environment injects no I/O error. *)
Definition no_faults (w : World) : bool :=
  forallb (λ f : option errno, bool_decide (f = None)) (faults w).

(** A handle's storage is usable: its directory exists or can be created,
    and its file location is not taken by a directory. *)
Definition usable (d : Disk) (h : CachedConfiguration.t) : bool :=
  no_file_along d [] (folder_location h)
  && bool_decide (entry_at d (file_location h) ≠ Some Dir).

(** Neither location lies at or below the other. *)
Definition apart (p q : location) : bool :=
  bool_decide (¬ p `prefix_of` q) && bool_decide (¬ q `prefix_of` p).

(** Two keys that cannot disturb each other: they are memoized under
    different strings and their directories lie apart. *)
Definition independent (env : INativeEnvironmentService) (k k' : ConfigurationKey) : bool :=
  bool_decide (ConfigurationCache.composite k' ≠ ConfigurationCache.composite k)
  && apart (folder_location (CachedConfiguration.new k env))
           (folder_location (CachedConfiguration.new k' env)).

(** An operation of a history followed for key [k]: on [k] itself, or on a
    key independent of it. *)
Definition allowed (env : INativeEnvironmentService) (k : ConfigurationKey) (o : Op) : bool :=
  bool_decide (op_key o = k) || independent env k (op_key o).

(** The operation neither writes nor removes key [k]. *)
Definition keeps (k : ConfigurationKey) (o : Op) : bool :=
  match o with
  | OpRead _ => true
  | OpWrite k' _ | OpRemove k' => bool_decide (k' ≠ k)
  end.

(** What an operation does to the bytes stored for key [k], were nothing
    ever to fail: the reference behaviour of the cache for one key. *)
Definition denote (k : ConfigurationKey) (o : Op) (stored : option string) : option string :=
  match o with
  | OpRead _ => stored
  | OpWrite k' content =>
      if decide (k' = k) then Some (Buffer.from_string content) else stored
  | OpRemove k' => if decide (k' = k) then None else stored
  end.

Definition denote_all (k : ConfigurationKey) (ops : list Op) (stored : option string)
    : option string :=
  foldl (λ stored o, denote k o stored) stored ops.

(** Every memoized handle was built by the constructor, for a key with the
    string it is memoized under, in the cache's environment. *)
Definition built (env : INativeEnvironmentService) (c : ConfigurationCache.t) : Prop :=
  ConfigurationCache.environmentService c = env
  ∧ ∀ (str : string) (h : CachedConfiguration.t),
      ConfigurationCache.cachedConfigurations c !! str = Some h →
      ∃ k', ConfigurationCache.composite k' = str ∧ h = CachedConfiguration.new k' env.

(** The operation writes key [k]. *)
Definition writes (k : ConfigurationKey) (o : Op) : bool :=
  match o with
  | OpWrite k' _ => bool_decide (k' = k)
  | _ => false
  end.

(** The error the environment injects into the next primitive call. *)
Definition next_injected (w : World) : option errno :=
  match faults w with
  | Some e :: _ => Some e
  | _ => None
  end.

(** The write of [content] to key [k] in state [s] is carried out: the
    key's directory is there or gets created, and the file overwrite
    resolves. *)
Definition carried_out (k : ConfigurationKey) (content : jsstring) (s : State) : bool :=
  let h := handle_of (cache s) k in
  match CachedConfiguration.createCachedFolder h (world s) with
  | (Resolved true, w1) =>
      bool_decide
        (fst (pfs.writeFile (CachedConfiguration.cachedConfigurationFilePath h) content w1)
         = Resolved tt)
  | _ => false
  end.

(** In state [s] the operation touches what handle [h] stores: it writes
    through a handle with the same file location, or removes through a
    handle whose directory holds that file location. *)
Definition disturbs (h : CachedConfiguration.t) (s : State) (o : Op) : bool :=
  match o with
  | OpRead _ => false
  | OpWrite k' _ =>
      bool_decide (file_location (handle_of (cache s) k') = file_location h)
  | OpRemove k' =>
      bool_decide (folder_location (handle_of (cache s) k') `prefix_of` file_location h)
  end.

(** No operation of the history, run from [s], touches what [h] stores. *)
Fixpoint undisturbed (h : CachedConfiguration.t) (ops : list Op) (s : State) : bool :=
  match ops with
  | [] => true
  | o :: ops' => negb (disturbs h s o) && undisturbed h ops' (exec o s)
  end.

(** No operation of the history, run from [s], writes through a handle
    whose file location is [p]. *)
Fixpoint never_written (p : location) (ops : list Op) (s : State) : bool :=
  match ops with
  | [] => true
  | o :: ops' =>
      negb (match o with
            | OpWrite k' _ => bool_decide (file_location (handle_of (cache s) k') = p)
            | _ => false
            end)
      && never_written p ops' (exec o s)
  end.

(** No write of the history, run from [s], goes through a handle that
    keeps its directory at or below [p], or its file at or below [p] or on
    the way to [p]. *)
Fixpoint clear_of (p : location) (ops : list Op) (s : State) : bool :=
  match ops with
  | [] => true
  | o :: ops' =>
      match o with
      | OpWrite k' _ =>
          bool_decide (¬ p `prefix_of` folder_location (handle_of (cache s) k'))
          && apart p (file_location (handle_of (cache s) k'))
      | _ => true
      end
      && clear_of p ops' (exec o s)
  end.

(** The disk is a tree: the root is not recorded, and every recorded entry
    sits in a directory. *)
Definition tree_ok (d : Disk) : bool :=
  bool_decide
    (map_Forall (λ (q : list string) (_ : entry),
                   q ≠ [] ∧ entry_at d (removelast q) = Some Dir) d).

(** The handle map is in order for key [k]: [k]'s composite string is
    memoized (if at all) with [k]'s own handle, and every other memoized
    handle was built by the constructor with its directory apart from
    [k]'s. *)
Definition tracked (env : INativeEnvironmentService) (k : ConfigurationKey)
    (c : ConfigurationCache.t) : Prop :=
  ConfigurationCache.environmentService c = env
  ∧ ∀ (str : string) (h : CachedConfiguration.t),
      ConfigurationCache.cachedConfigurations c !! str = Some h →
      if decide (str = ConfigurationCache.composite k)
      then h = CachedConfiguration.new k env
      else ∃ k', h = CachedConfiguration.new k' env
                 ∧ apart (folder_location (CachedConfiguration.new k env))
                         (folder_location h) = true.

(** The state follows the reference behaviour for key [k]: the
    environment is quiet, the storage of [k] is usable and holds [stored]. *)
Definition follows (env : INativeEnvironmentService) (k : ConfigurationKey)
    (stored : option string) (s : State) : Prop :=
  tracked env k (cache s)
  ∧ no_faults (world s) = true
  ∧ usable (disk (world s)) (CachedConfiguration.new k env) = true
  ∧ content_at (disk (world s)) (file_location (CachedConfiguration.new k env)) = stored.

(** The bytes stored for a key: what is at the file location of the
    handle the cache resolves the key to. *)
Definition stored_text (s : State) (k : ConfigurationKey) : option string :=
  content_at (disk (world s)) (file_location (handle_of (cache s) k)).

(** The string holds the character. *)
Fixpoint has_char (c : ascii) (s : string) : bool :=
  match s with
  | EmptyString => false
  | String c' s' => Ascii.eqb c' c || has_char c s'
  end.

(** A plain name: a single path segment that names an entry.  It is not
    empty, holds no separator, and is neither ["."] nor [".."]. *)
Definition plain (s : string) : bool :=
  negb (has_char "/" s) && bool_decide (s ≠ "") && bool_decide (s ≠ ".")
  && bool_decide (s ≠ "..").

(** The key's type holds no [":"], the character that separates type and
    key in the string a handle is memoized under. *)
Definition colon_free (k : ConfigurationKey) : bool :=
  negb (has_char ":" (type k)).

(** A key made of plain names. *)
Definition plain_key (k : ConfigurationKey) : bool :=
  plain (type k) && colon_free k && plain (key k).

(** Every memoized handle was built by the constructor for a key whose
    type holds no [":"], and is memoized under that key's string. *)
Definition owned (env : INativeEnvironmentService) (c : ConfigurationCache.t) : Prop :=
  ConfigurationCache.environmentService c = env
  ∧ ∀ (str : string) (h : CachedConfiguration.t),
      ConfigurationCache.cachedConfigurations c !! str = Some h →
      ∃ k', colon_free k' = true ∧ ConfigurationCache.composite k' = str
            ∧ h = CachedConfiguration.new k' env.

(** The environment injects no error into the next [n] primitive calls. *)
Definition calm (n : nat) (fs : list (option errno)) : bool :=
  forallb (λ f : option errno, bool_decide (f = None)) (take n fs).

(** Arithmetic with quotients and remainders by constants. *)
Ltac Zify.zify_post_hook ::= Z.to_euclidean_division_equations.

(** Splits on the comparisons of the goal and closes the cases the
    context excludes. *)
Ltac decide_comparisons :=
  repeat match goal with
         | |- context [(?a <? ?b)%N] => destruct (N.ltb_spec a b); try lia
         | |- context [(?a <=? ?b)%N] => destruct (N.leb_spec a b); try lia
         | |- context [(?a =? ?b)%N] => destruct (N.eqb_spec a b); try lia
         end.

(** Proof steps used throughout: a split on what the environment does to
    the next primitive call, and the unfolding of the methods down to the
    primitives. *)
Ltac next_fault w :=
  let d := fresh "d" in let e := fresh "e" in let fs := fresh "fs" in
  destruct w as [d [|[e|] fs]].

Ltac unfold_methods :=
  unfold CachedConfiguration.save, CachedConfiguration.createCachedFolder,
    CachedConfiguration.read, CachedConfiguration.remove,
    pfs.readFile, pfs.writeFile, pfs.exists_, pfs.mkdirp, pfs.rimraf, pfs.io,
    bind, then2, try_catch, resolved in *.

(* ===================================================================== *)
(** * Strings and buffers: lemmas *)
(* ===================================================================== *)


Lemma bytes_of_bytes (l : list N) :
  Forall (λ b, (b < 256)%N) l → Buffer.bytes (Buffer.of_bytes l) = l.
Proof.
  unfold Buffer.bytes, Buffer.of_bytes. rewrite list_ascii_of_string_of_list_ascii.
  induction 1 as [|b l Hb _ IH]; simpl; [done|].
  by rewrite IH, N_ascii_embedding.
Qed.

Lemma scalar_spec (cp : N) :
  scalar cp = true ↔ (cp < 1114112 ∧ ¬ (55296 ≤ cp ≤ 57343))%N.
Proof.
  unfold scalar. rewrite andb_true_iff, negb_true_iff, andb_false_iff.
  rewrite N.ltb_lt, !N.leb_gt. lia.
Qed.

Lemma utf8_bytes (cp : N) :
  scalar cp = true → Forall (λ b, (b < 256)%N) (Buffer.utf8 cp).
Proof.
  intros [H1 H2]%scalar_spec. unfold Buffer.utf8.
  decide_comparisons; repeat constructor; lia.
Qed.

Lemma step_continue (st : Buffer.decoder) (b : N) (n : nat) :
  Buffer.needed st = S n →
  (Buffer.lower st ≤ b ≤ Buffer.upper st)%N →
  Buffer.step st b
  = match n with
    | O => ([Buffer.code_point st * 64 + (b - 128)]%N, Buffer.idle)
    | S _ => ([], Buffer.mkDecoder (Buffer.code_point st * 64 + (b - 128)) n 128 191)
    end.
Proof.
  intros Hn Hb. unfold Buffer.step. rewrite Hn.
  by decide_comparisons.
Qed.

Lemma decode_cons (st : Buffer.decoder) (b : N) (bs : list N) :
  Buffer.decode st (b :: bs)
  = (Buffer.step st b).1 ++ Buffer.decode (Buffer.step st b).2 bs.
Proof. cbn [Buffer.decode]. by destruct (Buffer.step st b). Qed.

Lemma lead_1 (b : N) : (b < 128)%N → Buffer.step Buffer.idle b = ([b], Buffer.idle).
Proof. intros Hb. cbn. unfold Buffer.lead. by decide_comparisons. Qed.

Lemma lead_2 (b : N) :
  (194 ≤ b ≤ 223)%N →
  Buffer.step Buffer.idle b = ([], Buffer.mkDecoder (b - 192) 1 128 191).
Proof. intros Hb. cbn. unfold Buffer.lead. by decide_comparisons. Qed.

Lemma lead_3 (b : N) :
  (224 ≤ b ≤ 239)%N →
  Buffer.step Buffer.idle b
  = ([], Buffer.mkDecoder (b - 224) 2 (if b =? 224 then 160 else 128)
                                      (if b =? 237 then 159 else 191))%N.
Proof.
  intros Hb. cbn. unfold Buffer.lead.
  destruct (N.ltb_spec b 128); [lia|].
  destruct (N.leb_spec 194 b); [|lia]. destruct (N.leb_spec b 223); [lia|].
  destruct (N.leb_spec 224 b); [|lia]. by destruct (N.leb_spec b 239); [|lia].
Qed.

Lemma lead_4 (b : N) :
  (240 ≤ b ≤ 244)%N →
  Buffer.step Buffer.idle b
  = ([], Buffer.mkDecoder (b - 240) 3 (if b =? 240 then 144 else 128)
                                      (if b =? 244 then 143 else 191))%N.
Proof.
  intros Hb. cbn. unfold Buffer.lead.
  destruct (N.ltb_spec b 128); [lia|].
  destruct (N.leb_spec 194 b); [|lia]. destruct (N.leb_spec b 223); [lia|].
  destruct (N.leb_spec 224 b); [|lia]. destruct (N.leb_spec b 239); [lia|].
  destruct (N.leb_spec 240 b); [|lia]. by destruct (N.leb_spec b 244); [|lia].
Qed.

(** The bytes of a code point are decoded to that code point, whatever
    follows. *)
Lemma decode_utf8 (cp : N) (bs : list N) :
  scalar cp = true →
  Buffer.decode Buffer.idle (Buffer.utf8 cp ++ bs) = cp :: Buffer.decode Buffer.idle bs.
Proof.
  intros [H1 H2]%scalar_spec. unfold Buffer.utf8.
  assert (Hgo : ∀ (st : Buffer.decoder) (b : N) (n : nat) (rest : list N),
    Buffer.needed st = S n →
    (Buffer.lower st ≤ b ≤ Buffer.upper st)%N →
    Buffer.decode st (b :: rest)
    = (match n with
       | O => ([Buffer.code_point st * 64 + (b - 128)]%N, Buffer.idle)
       | S _ => ([], Buffer.mkDecoder (Buffer.code_point st * 64 + (b - 128)) n 128 191)
       end).1
      ++ Buffer.decode
           (match n with
            | O => ([Buffer.code_point st * 64 + (b - 128)]%N, Buffer.idle)
            | S _ => ([], Buffer.mkDecoder (Buffer.code_point st * 64 + (b - 128))
                            n 128 191)
            end).2 rest).
  { intros st b n rest Hn Hb. by rewrite decode_cons, (step_continue _ _ n). }
  destruct (N.ltb_spec cp 128) as [E1|E1];
    [|destruct (N.ltb_spec cp 2048) as [E2|E2];
      [|destruct (N.ltb_spec cp 65536) as [E3|E3]]];
    cbn [app]; rewrite decode_cons.
  - by rewrite lead_1.
  - rewrite lead_2 by lia. cbn [fst snd app].
    rewrite (Hgo _ _ 0%nat) by (cbn; first [done | lia]).
    cbn [fst snd app Buffer.code_point]. f_equal. lia.
  - rewrite lead_3 by lia. cbn [fst snd app].
    rewrite (Hgo _ _ 1%nat) by (cbn; first [done | decide_comparisons; lia]).
    cbn [fst snd app Buffer.code_point].
    rewrite (Hgo _ _ 0%nat) by (cbn; first [done | lia]).
    cbn [fst snd app Buffer.code_point]. f_equal. lia.
  - rewrite lead_4 by lia. cbn [fst snd app].
    rewrite (Hgo _ _ 2%nat) by (cbn; first [done | decide_comparisons; lia]).
    cbn [fst snd app Buffer.code_point].
    rewrite (Hgo _ _ 1%nat) by (cbn; first [done | lia]).
    cbn [fst snd app Buffer.code_point].
    rewrite (Hgo _ _ 0%nat) by (cbn; first [done | lia]).
    cbn [fst snd app Buffer.code_point]. f_equal. lia.
Qed.

Lemma decode_flat_map_utf8 (cps : list N) :
  Forall (λ cp, scalar cp = true) cps →
  Buffer.decode Buffer.idle (flat_map Buffer.utf8 cps) = cps.
Proof.
  induction 1 as [|cp cps Hcp _ IH]; [done|].
  cbn [flat_map]. by rewrite decode_utf8, IH.
Qed.

Lemma flat_map_utf8_bytes (cps : list N) :
  Forall (λ cp, scalar cp = true) cps →
  Forall (λ b, (b < 256)%N) (flat_map Buffer.utf8 cps).
Proof.
  induction 1 as [|cp cps Hcp _ IH]; [constructor|].
  cbn [flat_map]. apply Forall_app. split; [by apply utf8_bytes|done].
Qed.

(** The code points of a well-formed string can all be encoded, and give
    back its code units. *)
Lemma well_formed_code_points (n : nat) (s : jsstring) :
  (List.length s ≤ n)%nat → well_formed s = true →
  Forall (λ cp, scalar cp = true) (Buffer.code_points s)
  ∧ flat_map Buffer.utf16 (Buffer.code_points s) = s.
Proof.
  revert s. induction n as [|n IH]; intros s Hlen Hwf.
  { destruct s; [by split|simpl in Hlen; lia]. }
  destruct s as [|u rest]; [by split|].
  cbn [well_formed] in Hwf. apply andb_true_iff in Hwf as [Hu Hwf].
  apply N.ltb_lt in Hu. cbn [Buffer.code_points].
  rewrite (N.mod_small u) by done.
  destruct (Buffer.is_high u) eqn:Hhigh.
  - destruct rest as [|v rest']; [done|].
    apply andb_true_iff in Hwf as [Hv Hwf]. apply andb_true_iff in Hv as [Hv Hlow].
    apply N.ltb_lt in Hv. rewrite (N.mod_small v) by done. rewrite Hlow.
    destruct (IH rest') as [Hsc Hrt]; [simpl in Hlen; lia|done|].
    unfold Buffer.is_high, Buffer.is_low in *.
    apply andb_true_iff in Hhigh as [Hh1 Hh2], Hlow as [Hl1 Hl2].
    apply N.leb_le in Hh1, Hh2, Hl1, Hl2.
    split.
    + constructor; [|done]. apply scalar_spec. lia.
    + cbn [flat_map]. rewrite Hrt. unfold Buffer.utf16.
      decide_comparisons. cbn [app]. f_equal; [lia|]. f_equal. lia.
  - apply andb_true_iff in Hwf as [Hlow Hwf]. apply negb_true_iff in Hlow.
    rewrite Hlow. destruct (IH rest) as [Hsc Hrt]; [simpl in Hlen; lia|done|].
    unfold Buffer.is_high, Buffer.is_low in *.
    apply andb_false_iff in Hhigh, Hlow. rewrite !N.leb_gt in Hhigh, Hlow.
    split.
    + constructor; [|done]. apply scalar_spec. lia.
    + cbn [flat_map]. rewrite Hrt. unfold Buffer.utf16. by decide_comparisons.
Qed.

(** A well-formed string comes back from its buffer unchanged. *)
Lemma toString_from_string (s : jsstring) :
  well_formed s = true → Buffer.toString (Buffer.from_string s) = s.
Proof.
  intros Hwf. destruct (well_formed_code_points (List.length s) s) as [Hsc Hrt]; [done|done|].
  unfold Buffer.toString, Buffer.from_string.
  rewrite bytes_of_bytes by by apply flat_map_utf8_bytes.
  by rewrite decode_flat_map_utf8.
Qed.

(* ===================================================================== *)
(** * Paths: lemmas *)
(* ===================================================================== *)

Lemma segments_nonempty (s : string) : segments s ≠ [].
Proof.
  destruct s as [|c s]; simpl; [done|].
  destruct (Ascii.eqb c "/"); [done|].
  by destruct (segments s).
Qed.

Lemma segments_append_sep (a b : string) :
  segments (a +:+ String "/" b) = segments a ++ segments b.
Proof.
  induction a as [|c a IH]; simpl; [done|].
  destruct (Ascii.eqb c "/"); [by rewrite IH|].
  rewrite IH. pose proof (segments_nonempty a) as Hne.
  by destruct (segments a).
Qed.

Lemma resolve_append_sep (a b : string) :
  resolve (a +:+ String "/" b) = foldl walk (resolve a) (segments b).
Proof. unfold resolve. by rewrite segments_append_sep, foldl_app. Qed.

(** Joining a directory path with one of the two file names descends one
    level from the directory's location. *)
Lemma resolve_join_fileName (folder ty : string) :
  resolve (join [folder; CachedConfiguration.fileName ty])
  = resolve folder ++ [CachedConfiguration.fileName ty].
Proof.
  unfold join, CachedConfiguration.fileName.
  destruct folder as [|c folder].
  - by case_decide.
  - assert (Hk : ∀ name : string, name ≠ "" →
      filter (λ s : string, s ≠ "") [String c folder; name] = [String c folder; name]).
    { intros name Hn. rewrite filter_cons_True by done.
      rewrite filter_cons_True by done. done. }
    case_decide.
    + rewrite Hk by done. cbn [String.concat].
      change (String c folder +:+ "/" +:+ "workspace.json")
        with (String c folder +:+ String "/" "workspace.json").
      by rewrite resolve_append_sep.
    + rewrite Hk by done. cbn [String.concat].
      change (String c folder +:+ "/" +:+ "configuration.json")
        with (String c folder +:+ String "/" "configuration.json").
      by rewrite resolve_append_sep.
Qed.

Lemma file_location_new (k : ConfigurationKey) (env : INativeEnvironmentService) :
  file_location (CachedConfiguration.new k env)
  = folder_location (CachedConfiguration.new k env) ++ [CachedConfiguration.fileName (type k)].
Proof. apply resolve_join_fileName. Qed.

(** The path of a handle's file ends with the file name: it does not ask
    for a directory. *)
Lemma dir_only_snoc (l : list string) (x : string) :
  x ≠ "" → match rev (l ++ [x]) with "" :: _ :: _ => true | _ => false end = false.
Proof. intros Hx. rewrite rev_app_distr. simpl. by destruct x. Qed.

Lemma file_plain_new (k : ConfigurationKey) (env : INativeEnvironmentService) :
  dir_only (CachedConfiguration.cachedConfigurationFilePath (CachedConfiguration.new k env))
  = false.
Proof.
  unfold dir_only. simpl.
  generalize (join [userDataPath env; "CachedConfigurations"; type k; key k]).
  intros folder. unfold join, CachedConfiguration.fileName.
  destruct folder as [|c folder].
  - by case_decide.
  - assert (Hk : ∀ name : string, name ≠ "" →
      filter (λ s : string, s ≠ "") [String c folder; name] = [String c folder; name]).
    { intros name Hn. rewrite filter_cons_True by done.
      rewrite filter_cons_True by done. done. }
    case_decide.
    + rewrite Hk by done. cbn [String.concat].
      change (String c folder +:+ "/" +:+ "workspace.json")
        with (String c folder +:+ String "/" "workspace.json").
      rewrite segments_append_sep. by apply dir_only_snoc.
    + rewrite Hk by done. cbn [String.concat].
      change (String c folder +:+ "/" +:+ "configuration.json")
        with (String c folder +:+ String "/" "configuration.json").
      rewrite segments_append_sep. by apply dir_only_snoc.
Qed.

(** A string without separator is a single segment. *)
Lemma segments_no_separator (s : string) :
  has_char "/" s = false → segments s = [s].
Proof.
  induction s as [|c s IH]; simpl; [done|].
  intros [Hc Hs]%orb_false_iff. rewrite Hc. by rewrite IH.
Qed.

(** Walking a plain name descends one level. *)
Lemma walk_plain (p : location) (s : string) :
  plain s = true → foldl walk p (segments s) = p ++ [s].
Proof.
  unfold plain. rewrite !andb_true_iff, negb_true_iff, !bool_decide_eq_true.
  intros [[[Hs H1] H2] H3]. rewrite segments_no_separator by done.
  simpl. unfold walk. by rewrite !decide_False.
Qed.


Lemma segments_concat (x : string) (xs : list string) :
  segments (String.concat "/" (x :: xs)) = flat_map segments (x :: xs).
Proof.
  revert x. induction xs as [|y xs IH]; intros x.
  - simpl. by rewrite app_nil_r.
  - change (String.concat "/" (x :: y :: xs))
      with (x +:+ String "/" (String.concat "/" (y :: xs))).
    by rewrite segments_append_sep, IH.
Qed.

(** The empty arguments [join] leaves out do not matter to where the path
    leads. *)
Lemma walk_filter_empty (parts : list string) (p : location) :
  foldl walk p (flat_map segments (filter (λ s : string, s ≠ "") parts))
  = foldl walk p (flat_map segments parts).
Proof.
  revert p. induction parts as [|x parts IH]; intros p; [done|].
  destruct (decide (x = "")) as [->|Hx].
  - rewrite filter_cons_False by (by intros ?). simpl. apply IH.
  - rewrite filter_cons_True by done. simpl. rewrite !foldl_app. apply IH.
Qed.

(** Where a joined path leads: the segments of the arguments are walked
    one after the other. *)
Lemma resolve_join (parts : list string) :
  resolve (join parts) = foldl walk [] (flat_map segments parts).
Proof.
  rewrite <- walk_filter_empty. unfold join, resolve.
  destruct (filter _ parts) as [|x xs]; [done|].
  by rewrite segments_concat.
Qed.

(** The directory of a key: below [CachedConfigurations] in the user-data
    directory, the segments of the type and then of the key are walked. *)
Lemma folder_location_new (k : ConfigurationKey) (env : INativeEnvironmentService) :
  folder_location (CachedConfiguration.new k env)
  = foldl walk (foldl walk (resolve (userDataPath env) ++ ["CachedConfigurations"])
                           (segments (type k)))
               (segments (key k)).
Proof.
  unfold folder_location. simpl. rewrite resolve_join. simpl.
  rewrite app_nil_r, !foldl_app. cbn [foldl]. by rewrite foldl_app.
Qed.

Lemma folder_location_plain (k : ConfigurationKey) (env : INativeEnvironmentService) :
  plain (type k) = true → plain (key k) = true →
  folder_location (CachedConfiguration.new k env)
  = resolve (userDataPath env) ++ ["CachedConfigurations"; type k; key k].
Proof.
  intros Ht Hk. rewrite folder_location_new, !walk_plain by done.
  by rewrite <- !app_assoc.
Qed.

(* ===================================================================== *)
(** * The file system: lemmas *)
(* ===================================================================== *)

Lemma entry_at_cons (d : Disk) (x : string) (p : location) :
  entry_at d (x :: p) = d !! (x :: p).
Proof. reflexivity. Qed.

Lemma entry_at_snoc (d : Disk) (p : location) (x : string) :
  entry_at d (p ++ [x]) = d !! (p ++ [x]).
Proof. by destruct p. Qed.

(** Directories are only ever added where nothing was recorded. *)
Lemma mkdirp_walk_entries (todo : list string) (d d' : Disk) (base : location) (q : location)
    (r : outcome unit) :
  mkdirp_walk d base todo = (r, d') →
  d' !! q = d !! q ∨ (d !! q = None ∧ d' !! q = Some Dir).
Proof.
  revert d base. induction todo as [|seg todo IH]; intros d base Hw; simpl in Hw.
  - left. congruence.
  - destruct (d !! (base ++ [seg])) as [[c|]|] eqn:Hp; [left; congruence| |].
    + eauto.
    + destruct (IH _ _ Hw) as [Hq|[Hq1 Hq2]].
      * destruct (decide (q = base ++ [seg])) as [->|Hne].
        -- right. split; [done|]. by rewrite Hq, lookup_insert_eq.
        -- left. by rewrite Hq, lookup_insert_ne.
      * destruct (decide (q = base ++ [seg])) as [->|Hne].
        -- by rewrite lookup_insert_eq in Hq1.
        -- right. by rewrite lookup_insert_ne in Hq1.
Qed.

(** Nothing changes off the path that is being created. *)
Lemma mkdirp_walk_off_path (todo : list string) (d d' : Disk) (base : location) (q : location)
    (r : outcome unit) :
  mkdirp_walk d base todo = (r, d') →
  ¬ q `prefix_of` (base ++ todo) →
  d' !! q = d !! q.
Proof.
  revert d base. induction todo as [|seg todo IH]; intros d base Hw Hq; simpl in Hw.
  - congruence.
  - assert (Hq' : ¬ q `prefix_of` ((base ++ [seg]) ++ todo)) by by rewrite <- app_assoc.
    assert (Hne : base ++ [seg] ≠ q).
    { intros <-. apply Hq. exists todo. by rewrite <- app_assoc. }
    destruct (d !! (base ++ [seg])) as [[c|]|] eqn:Hp; [congruence| |].
    + eauto.
    + rewrite (IH _ _ Hw Hq'). by rewrite lookup_insert_ne.
Qed.

(** When the walk succeeds, its end point is a directory. *)
Lemma mkdirp_walk_creates (todo : list string) (d d' : Disk) (base : location) :
  mkdirp_walk d base todo = (Resolved tt, d') →
  todo ≠ [] →
  d' !! (base ++ todo) = Some Dir.
Proof.
  revert d base. induction todo as [|seg todo IH]; intros d base Hw Hne; [done|].
  simpl in Hw. replace (base ++ seg :: todo) with ((base ++ [seg]) ++ todo) by by rewrite <- app_assoc.
  destruct todo as [|seg' todo].
  - rewrite app_nil_r. simpl in Hw.
    destruct (d !! (base ++ [seg])) as [[c|]|] eqn:Hp; [done| |].
    + congruence.
    + inversion Hw; subst. by rewrite lookup_insert_eq.
  - destruct (d !! (base ++ [seg])) as [[c|]|] eqn:Hp; [done| |]; by eapply IH.
Qed.

Lemma is_file_insert_dir (d : Disk) (p q : location) :
  d !! p = None → is_file (<[p := Dir]> d) q = is_file d q.
Proof.
  intros Hp. unfold is_file. destruct (decide (p = q)) as [->|Hne].
  - by rewrite lookup_insert_eq, Hp.
  - by rewrite lookup_insert_ne.
Qed.

Lemma no_file_along_ext (todo : list string) (d1 d2 : Disk) (base : location) :
  (∀ q, is_file d1 q = is_file d2 q) →
  no_file_along d1 base todo = no_file_along d2 base todo.
Proof.
  intros Hdd. revert base. induction todo as [|seg todo IH]; intros base; simpl; [done|].
  by rewrite Hdd, IH.
Qed.

Lemma prefix_snoc_inv (q p : location) (x : string) :
  q `prefix_of` (p ++ [x]) → q `prefix_of` p ∨ q = p ++ [x].
Proof.
  intros [t Ht]. destruct t as [|y t _] using rev_ind.
  - right. by rewrite app_nil_r in Ht.
  - left. rewrite app_assoc in Ht. apply app_inj_tail in Ht as [-> _].
    by apply prefix_app_r.
Qed.

(** What [no_file_along] checks, location by location. *)
Lemma no_file_along_spec (todo : list string) (d : Disk) (base : location) :
  no_file_along d base todo = true ↔
  ∀ q, q `prefix_of` (base ++ todo) → ¬ q `prefix_of` base → is_file d q = false.
Proof.
  revert base. induction todo as [|seg todo IH]; intros base; simpl.
  - split; [|done]. intros _ q Hq Hn. by rewrite app_nil_r in Hq.
  - rewrite andb_true_iff, negb_true_iff, IH. split.
    + intros [Hh Ht] q Hq Hn.
      destruct (decide (q `prefix_of` (base ++ [seg]))) as [Hp|Hp].
      * apply prefix_snoc_inv in Hp as [Hp| ->]; [done|done].
      * apply Ht; [|done]. by rewrite <- app_assoc.
    + intros Hall. split.
      * apply Hall; [exists todo; by rewrite <- app_assoc|].
        apply prefix_snoc_not.
      * intros q Hq Hn. apply Hall; [by rewrite <- app_assoc in Hq|].
        intros Hp. apply Hn. by apply prefix_app_r.
Qed.

(** The directories along a path can be created exactly when no regular
    file is in the way. *)
Lemma mkdirp_walk_succeeds (todo : list string) (d : Disk) (base : location) :
  no_file_along d base todo = true → ∃ d', mkdirp_walk d base todo = (Resolved tt, d').
Proof.
  revert d base. induction todo as [|seg todo IH]; intros d base; simpl; [by eauto|].
  rewrite andb_true_iff, negb_true_iff. unfold is_file at 1. intros [Hh Ht].
  destruct (d !! (base ++ [seg])) as [[c|]|] eqn:Hp; [done| |].
  - by apply IH.
  - apply IH. rewrite <- Ht. apply no_file_along_ext. intros q.
    by apply is_file_insert_dir.
Qed.

(** ... and fail exactly when one is. *)
Lemma mkdirp_walk_fails (todo : list string) (d : Disk) (base : location) :
  no_file_along d base todo = false →
  ∃ e d', mkdirp_walk d base todo = (Rejected e, d').
Proof.
  revert d base. induction todo as [|seg todo IH]; intros d base; simpl; [done|].
  rewrite andb_false_iff, negb_false_iff. unfold is_file at 1. intros Hh.
  destruct (d !! (base ++ [seg])) as [[c|]|] eqn:Hp; [by eauto| |].
  - apply IH. by destruct Hh.
  - apply IH. destruct Hh as [|Hh]; [done|]. rewrite <- Hh.
    apply no_file_along_ext. intros q. by apply is_file_insert_dir.
Qed.

Lemma nothing_below_spec (d : Disk) (p q : location) :
  nothing_below d p = true → p `prefix_of` q → d !! q = None.
Proof.
  unfold nothing_below. rewrite bool_decide_eq_true. intros Hall Hp.
  destruct (d !! q) as [en|] eqn:Hl; [|done]. by apply Hall in Hl.
Qed.

(** What deleting leaves on the disk. *)
Lemma lookup_rimraf (d : Disk) (p q : location) :
  filter (λ kv : list string * entry, ¬ p `prefix_of` kv.1) d !! q
  = if decide (p `prefix_of` q) then None else d !! q.
Proof.
  case_decide as Hp.
  - apply map_lookup_filter_None_2. destruct (d !! q); [right|by left].
    intros x _ Hn. by apply Hn.
  - destruct (d !! q) as [x|] eqn:Hq.
    + by apply map_lookup_filter_Some_2.
    + apply map_lookup_filter_None_2. by left.
Qed.

(* ===================================================================== *)
(** * CachedConfiguration: what each method does to the world *)
(* ===================================================================== *)

Lemma no_faults_tail (d d' : Disk) (f : option errno) (fs : list (option errno)) :
  no_faults (mkWorld d (f :: fs)) = true → no_faults (mkWorld d' fs) = true.
Proof. unfold no_faults. simpl. by intros [_ ?]%andb_true_iff. Qed.

Lemma content_at_eq (d d' : Disk) (q : location) :
  (d' !! q = d !! q ∨ (d !! q = None ∧ d' !! q = Some Dir)) →
  content_at d' q = content_at d q.
Proof.
  unfold content_at, entry_at. destruct q as [|x q]; [done|].
  by intros [-> | [-> ->]].
Qed.

Section handle.
Variable h : CachedConfiguration.t.

Let folder := CachedConfiguration.cachedConfigurationFolderPath h.
Let file := CachedConfiguration.cachedConfigurationFilePath h.

(** [read] settles with the decoded bytes of the file, or with the empty
    string when [readFile] rejects; it never touches the disk. *)
Lemma read_run (w : World) :
  CachedConfiguration.read h w =
    (Resolved (match pfs.readFile file w with
               | (Resolved c, _) => Buffer.toString c
               | (Rejected _, _) => []
               end),
     mkWorld (disk w) (tail (faults w))).
Proof.
  subst file. unfold_methods. next_fault w; simpl; try done;
    by destruct (readable _ _).
Qed.

Lemma readFile_run (w : World) :
  fst (pfs.readFile file w) =
    match faults w with
    | Some e :: _ => Rejected e
    | _ => readable (disk w) file
    end.
Proof. subst file. unfold pfs.readFile, pfs.io. by next_fault w. Qed.

(** What can be read is what is stored. *)
Lemma readable_stored (d : Disk) (c : string) :
  readable d file = Resolved c → content_at d (file_location h) = Some c.
Proof.
  unfold readable, content_at, file_location. fold file.
  destruct (entry_at d (resolve file)) as [[c'|]|]; try done.
  destruct (dir_only file); [done|]. by intros [= ->].
Qed.

Lemma readable_absent (d : Disk) :
  content_at d (file_location h) = None → ∃ e, readable d file = Rejected e.
Proof.
  unfold readable, content_at, file_location. fold file.
  destruct (entry_at d (resolve file)) as [[c'|]|]; try done; by eexists.
Qed.

(** The second half of [createCachedFolder]: [mkdirp], mapped to whether
    it succeeded. *)
Lemma mkdirp_then_run (d : Disk) (fs : list (option errno)) :
  then2 (pfs.mkdirp folder) (λ _, resolved true) (λ _, resolved false) (mkWorld d fs)
  = match fs with
    | Some e :: rest => (Resolved false, mkWorld d rest)
    | _ => match mkdirp_walk d [] (folder_location h) with
           | (Resolved _, d') => (Resolved true, mkWorld d' (tail fs))
           | (Rejected _, d') => (Resolved false, mkWorld d' (tail fs))
           end
    end.
Proof.
  subst folder. unfold then2, pfs.mkdirp, pfs.io, resolved, folder_location.
  destruct fs as [|[e|] fs]; simpl; try done;
    by destruct (mkdirp_walk _ _ _) as [[?|?] ?].
Qed.

Lemma createCachedFolder_eq (w : World) :
  CachedConfiguration.createCachedFolder h w
  = match faults w with
    | Some e :: rest =>
        then2 (pfs.mkdirp folder) (λ _, resolved true) (λ _, resolved false)
          (mkWorld (disk w) rest)
    | fs =>
        if present (disk w) folder
        then (Resolved true, mkWorld (disk w) (tail fs))
        else then2 (pfs.mkdirp folder) (λ _, resolved true) (λ _, resolved false)
               (mkWorld (disk w) (tail fs))
    end.
Proof.
  subst folder. unfold CachedConfiguration.createCachedFolder.
  unfold bind at 1. unfold then2 at 1. unfold pfs.exists_, pfs.io, resolved at 1 2.
  next_fault w; simpl; try done; by destruct (present _ _).
Qed.

(** Something that answers to the directory path is recorded there. *)
Lemma present_entry (d : Disk) :
  present d folder = true → is_Some (entry_at d (folder_location h)).
Proof.
  unfold present, folder_location. fold folder.
  by destruct (entry_at d (resolve folder)) as [[?|]|].
Qed.

(** What [mkdirp] of the handle's directory leaves, however it settles. *)
Lemma mkdirp_walk_folder (d d' : Disk) (r : outcome unit) :
  mkdirp_walk d [] (folder_location h) = (r, d') →
  (∀ q, d' !! q = d !! q
        ∨ (d !! q = None ∧ d' !! q = Some Dir ∧ q `prefix_of` folder_location h))
  ∧ (r = Resolved tt → entry_at d' (folder_location h) = Some Dir).
Proof.
  intros Hw. split.
  - intros q. destruct (decide (q `prefix_of` folder_location h)) as [Hp|Hp].
    + destruct (mkdirp_walk_entries _ _ _ _ q _ Hw) as [?|[? ?]]; [by left|by right].
    + left. by apply (mkdirp_walk_off_path _ _ _ [] q _ Hw).
  - intros ->. destruct (folder_location h) as [|x l] eqn:Hl; [done|].
    rewrite entry_at_cons. by apply (mkdirp_walk_creates _ _ _ [] Hw).
Qed.

Lemma mkdirp_then_spec (d : Disk) (fs : list (option errno)) :
  ∃ (created : bool) (d' : Disk),
    then2 (pfs.mkdirp folder) (λ _, resolved true) (λ _, resolved false) (mkWorld d fs)
    = (Resolved created, mkWorld d' (tail fs))
    ∧ (∀ q, d' !! q = d !! q
            ∨ (d !! q = None ∧ d' !! q = Some Dir ∧ q `prefix_of` folder_location h))
    ∧ (created = true → entry_at d' (folder_location h) = Some Dir)
    ∧ (no_faults (mkWorld d fs) = true →
       no_file_along d [] (folder_location h) = true → created = true).
Proof.
  rewrite mkdirp_then_run.
  assert (Hwalk : ∃ (created : bool) (d' : Disk),
    match mkdirp_walk d [] (folder_location h) with
    | (Resolved _, d') => (Resolved true, mkWorld d' (tail fs))
    | (Rejected _, d') => (Resolved false, mkWorld d' (tail fs))
    end = (Resolved created, mkWorld d' (tail fs))
    ∧ (∀ q, d' !! q = d !! q
            ∨ (d !! q = None ∧ d' !! q = Some Dir ∧ q `prefix_of` folder_location h))
    ∧ (created = true → entry_at d' (folder_location h) = Some Dir)
    ∧ (no_faults (mkWorld d fs) = true →
       no_file_along d [] (folder_location h) = true → created = true)).
  { destruct (mkdirp_walk d [] (folder_location h)) as [[[]|e] d'] eqn:Hw.
    - destruct (mkdirp_walk_folder _ _ _ Hw) as [H1 H2].
      exists true, d'. split; [done|]. split; [done|]. split; [by intros _; apply H2|].
      done.
    - destruct (mkdirp_walk_folder _ _ _ Hw) as [H1 _].
      exists false, d'. split; [done|]. split; [done|]. split; [done|].
      intros _ Hn. apply mkdirp_walk_succeeds in Hn as [d'' Hd'']. congruence. }
  destruct fs as [|[e|] fs]; [exact Hwalk| |exact Hwalk].
  exists false, d. split; [done|]. split; [by left|]. split; [done|].
  intros Hf. done.
Qed.

(** [createCachedFolder] never rejects, records directories only, and
    only on the way to the handle's directory. *)
Lemma createCachedFolder_run (w : World) :
  ∃ (created : bool) (w' : World),
    CachedConfiguration.createCachedFolder h w = (Resolved created, w')
    ∧ (∀ q, disk w' !! q = disk w !! q
            ∨ (disk w !! q = None ∧ disk w' !! q = Some Dir
               ∧ q `prefix_of` folder_location h))
    ∧ (created = true → is_Some (entry_at (disk w') (folder_location h)))
    ∧ (∀ q, content_at (disk w') q = content_at (disk w) q)
    ∧ (no_faults w = true → no_faults w' = true)
    ∧ (no_faults w = true → no_file_along (disk w) [] (folder_location h) = true →
       created = true ∧ entry_at (disk w') (folder_location h) = Some Dir).
Proof.
  assert (Hgoal : ∃ (created : bool) (w' : World),
    CachedConfiguration.createCachedFolder h w = (Resolved created, w')
    ∧ (∀ q, disk w' !! q = disk w !! q
            ∨ (disk w !! q = None ∧ disk w' !! q = Some Dir
               ∧ q `prefix_of` folder_location h))
    ∧ (created = true → is_Some (entry_at (disk w') (folder_location h)))
    ∧ (no_faults w = true → no_faults w' = true)
    ∧ (no_faults w = true → no_file_along (disk w) [] (folder_location h) = true →
       created = true ∧ entry_at (disk w') (folder_location h) = Some Dir)).
  2:{ destruct Hgoal as (created & w' & H0 & H1 & H2 & H3 & H4).
      exists created, w'. split; [done|]. split; [done|]. split; [done|].
      split; [|by split]. intros q. apply content_at_eq.
      destruct (H1 q) as [?|(? & ? & _)]; auto. }
  rewrite createCachedFolder_eq.
  assert (Hdir : ∀ d, no_file_along d [] (folder_location h) = true →
    is_Some (entry_at d (folder_location h)) →
    entry_at d (folder_location h) = Some Dir).
  { intros d Hn [x Hx]. rewrite Hx. destruct x as [c|]; [|done]. exfalso.
    destruct (folder_location h) as [|y l] eqn:Hl; [done|].
    rewrite entry_at_cons in Hx.
    pose proof (proj1 (no_file_along_spec _ _ _) Hn (y :: l)) as Hs.
    unfold is_file in Hs. rewrite Hx in Hs.
    discriminate Hs; [done|]. by intros ?%prefix_nil_not. }
  assert (Hmk : ∀ d fs,
    ∃ (created : bool) (w' : World),
      then2 (pfs.mkdirp folder) (λ _, resolved true) (λ _, resolved false) (mkWorld d fs)
      = (Resolved created, w')
      ∧ (∀ q, disk w' !! q = d !! q
            ∨ (d !! q = None ∧ disk w' !! q = Some Dir
               ∧ q `prefix_of` folder_location h))
      ∧ (created = true → is_Some (entry_at (disk w') (folder_location h)))
      ∧ (no_faults (mkWorld d fs) = true → no_faults w' = true)
      ∧ (no_faults (mkWorld d fs) = true →
         no_file_along d [] (folder_location h) = true →
         created = true ∧ entry_at (disk w') (folder_location h) = Some Dir)).
  { intros d fs.
    destruct (mkdirp_then_spec d fs) as (created & d' & -> & H1 & H2 & H4).
    exists created, (mkWorld d' (tail fs)). simpl.
    split; [done|]. split; [done|]. split; [intros ->; by rewrite H2|].
    split.
    - destruct fs as [|f fs]; [done|]. apply (no_faults_tail d d').
    - intros Hf Hn. specialize (H4 Hf Hn). auto. }
  next_fault w; simpl.
  - destruct (present d folder) eqn:Hex.
    + apply present_entry in Hex.
      exists true, (mkWorld d []). simpl.
      split; [done|]. split; [by left|]. split; [done|].
      split; [done|]. auto.
    + apply Hmk.
  - destruct (Hmk d fs) as (created & w' & -> & H1 & H2 & H4 & H5).
    exists created, w'. split; [done|]. split; [done|]. split; [done|].
    split; intros; done.
  - destruct (present d folder) eqn:Hex.
    + apply present_entry in Hex.
      exists true, (mkWorld d fs). simpl.
      split; [done|]. split; [by left|]. split; [done|].
      split; [apply (no_faults_tail d d)|]. auto.
    + destruct (Hmk d fs) as (created & w' & -> & H1 & H2 & H4 & H5).
      exists created, w'. split; [done|]. split; [done|]. split; [done|].
      split.
      * intros Hf. apply H4. by apply (no_faults_tail d d) in Hf.
      * intros Hf. apply H5. by apply (no_faults_tail d d) in Hf.
Qed.

Lemma writeFile_run (content : jsstring) (w : World) :
  pfs.writeFile file content w
  = match faults w with
    | Some e :: rest => (Rejected e, mkWorld (disk w) rest)
    | fs =>
        match writable (disk w) file with
        | Resolved _ =>
            (Resolved tt,
             mkWorld (<[file_location h := File (Buffer.from_string content)]> (disk w))
                     (tail fs))
        | Rejected e => (Rejected e, mkWorld (disk w) (tail fs))
        end
    end.
Proof.
  subst file. unfold pfs.writeFile, pfs.io, file_location.
  next_fault w; simpl; try done; by destruct (writable _ _).
Qed.

(** When a file can be written: its path does not ask for a directory,
    no directory is in its place, and its parent is a directory. *)
Lemma writable_spec (d : Disk) :
  writable d file = Resolved tt ↔
    dir_only file = false
    ∧ entry_at d (file_location h) ≠ Some Dir
    ∧ entry_at d (removelast (file_location h)) = Some Dir.
Proof.
  unfold writable, file_location. fold file.
  destruct (entry_at d (resolve file)) as [[c|]|];
    destruct (entry_at d (removelast (resolve file))) as [[c'|]|];
    destruct (dir_only file); split; try done;
    try (by intros (? & ? & ?)).
Qed.

Lemma remove_run (w : World) :
  CachedConfiguration.remove h w
  = match faults w with
    | Some e :: rest => (Rejected e, mkWorld (disk w) rest)
    | fs =>
        if undeletable (disk w) folder
        then (Rejected ENOTDIR, mkWorld (disk w) (tail fs))
        else (Resolved tt,
              mkWorld (filter (λ kv : list string * entry,
                                 ¬ folder_location h `prefix_of` kv.1) (disk w))
                      (tail fs))
    end.
Proof.
  unfold CachedConfiguration.remove, pfs.rimraf, pfs.io, folder_location. fold folder.
  next_fault w; simpl; try done; by destruct (undeletable _ _).
Qed.

(** [save] is [createCachedFolder] followed, when that reports [true], by
    [writeFile]. *)
Lemma save_eq (content : jsstring) (w : World) :
  CachedConfiguration.save h content w
  = match CachedConfiguration.createCachedFolder h w with
    | (Resolved true, w1) => pfs.writeFile file content w1
    | (Resolved false, w1) => (Resolved tt, w1)
    | (Rejected e, w1) => (Rejected e, w1)
    end.
Proof.
  unfold CachedConfiguration.save, bind.
  destruct (CachedConfiguration.createCachedFolder h w) as [[[|]|e] w1]; done.
Qed.

(** The only regular file [save] can record is the handle's own, with
    the bytes of the content it was given; everything else it records is
    a directory on the way to the handle's directory. *)
Lemma save_entries (content : jsstring) (w : World) (q : location) :
  let w' := snd (CachedConfiguration.save h content w) in
  disk w' !! q = disk w !! q
  ∨ (disk w !! q = None ∧ disk w' !! q = Some Dir ∧ q `prefix_of` folder_location h)
  ∨ (q = file_location h ∧ disk w' !! q = Some (File (Buffer.from_string content))).
Proof.
  simpl. rewrite save_eq.
  destruct (createCachedFolder_run w) as (created & w1 & -> & H1 & _).
  destruct created; [|by destruct (H1 q) as [?|?]; auto].
  rewrite writeFile_run.
  assert (Hsame : disk w1 !! q = disk w !! q
    ∨ (disk w !! q = None ∧ disk w1 !! q = Some Dir ∧ q `prefix_of` folder_location h)
    ∨ (q = file_location h ∧ disk w1 !! q = Some (File (Buffer.from_string content))))
    by by destruct (H1 q) as [?|?]; auto.
  destruct (faults w1) as [|[e|] fs]; simpl; try done;
    (destruct (writable (disk w1) file) as [[]|e']; simpl; [|done];
     destruct (decide (q = file_location h)) as [->|Hne];
     [right; right; by rewrite lookup_insert_eq | by rewrite lookup_insert_ne]).
Qed.

Lemma save_no_faults (content : jsstring) (w : World) :
  no_faults w = true → no_faults (snd (CachedConfiguration.save h content w)) = true.
Proof.
  rewrite save_eq.
  destruct (createCachedFolder_run w) as (created & w1 & -> & _ & _ & _ & Hf & _).
  intros Hw. specialize (Hf Hw). destruct created; [|done].
  rewrite writeFile_run. destruct w1 as [d1 [|[e|] fs]]; simpl; try done.
  - by destruct (writable d1 file).
  - apply (no_faults_tail d1 d1) in Hf. by destruct (writable d1 file).
Qed.

Lemma read_no_faults (w : World) :
  no_faults w = true → no_faults (snd (CachedConfiguration.read h w)) = true.
Proof.
  rewrite read_run. destruct w as [d [|f fs]]; simpl; [done|].
  apply (no_faults_tail d d).
Qed.

Lemma remove_no_faults (w : World) :
  no_faults w = true → no_faults (snd (CachedConfiguration.remove h w)) = true.
Proof.
  rewrite remove_run. destruct w as [d [|[e|] fs]]; simpl; try done;
    destruct (undeletable d folder); try done; apply (no_faults_tail d d).
Qed.

Lemma usable_spec (d : Disk) :
  usable d h = true ↔
    (∀ q, q `prefix_of` folder_location h → q ≠ [] → is_file d q = false)
    ∧ entry_at d (file_location h) ≠ Some Dir.
Proof.
  unfold usable. rewrite andb_true_iff, bool_decide_eq_true, no_file_along_spec.
  simpl. split; intros [H1 H2]; (split; [|done]); intros q Hq Hn; apply H1; try done.
  - by intros ->%prefix_nil_inv.
  - intros ->. apply Hn. by exists [].
Qed.

(** A disk change that records no new file on the way to the handle's
    directory and no new directory at its file location keeps the handle
    usable. *)
Lemma usable_preserved (d d' : Disk) :
  usable d h = true →
  (∀ q, q `prefix_of` folder_location h → is_file d' q = true → is_file d q = true) →
  (entry_at d' (file_location h) = Some Dir → entry_at d (file_location h) = Some Dir) →
  usable d' h = true.
Proof.
  rewrite !usable_spec. intros [H1 H2] Hf Hd. split; [|by auto].
  intros q Hq Hn. destruct (is_file d' q) eqn:E; [|done].
  apply Hf in E; [|done]. by rewrite H1 in E.
Qed.

(** On usable storage the directory can be deleted, or is not there. *)
Lemma usable_deletable (d : Disk) : usable d h = true → undeletable d folder = false.
Proof.
  intros [Hn _]%andb_true_iff. unfold undeletable.
  change (resolve folder) with (folder_location h).
  destruct (entry_at d (folder_location h)) as [[c|]|] eqn:Hf; [|done|by rewrite Hn].
  exfalso. destruct (folder_location h) as [|y l] eqn:Hl; [done|].
  rewrite entry_at_cons in Hf.
  pose proof (proj1 (no_file_along_spec _ _ _) Hn (y :: l)) as Hs.
  unfold is_file in Hs. rewrite Hf in Hs.
  discriminate Hs; [done|]. by intros ?%prefix_nil_not.
Qed.

(** The handle was built by the constructor: its file sits directly in
    its directory, and its path does not ask for a directory. *)
Variable name : string.
Hypothesis file_in_folder : file_location h = folder_location h ++ [name].
Hypothesis file_plain : dir_only file = false.

Lemma file_not_above_folder : ¬ file_location h `prefix_of` folder_location h.
Proof. rewrite file_in_folder. apply prefix_snoc_not. Qed.

(** In a quiet environment, on usable storage, [save] stores the bytes of
    the content. *)
Lemma save_calm (content : jsstring) (w : World) :
  no_faults w = true → usable (disk w) h = true →
  ∃ w', CachedConfiguration.save h content w = (Resolved tt, w')
        ∧ content_at (disk w') (file_location h) = Some (Buffer.from_string content)
        ∧ usable (disk w') h = true
        ∧ no_faults w' = true.
Proof.
  intros Hf Hu.
  pose proof (save_no_faults content w Hf) as Hf'.
  pose proof (save_entries content w) as Hent. simpl in Hent.
  revert Hf' Hent. rewrite save_eq.
  destruct (createCachedFolder_run w) as (created & w1 & -> & H1 & _ & _ & Hf1 & Hc).
  apply andb_true_iff in Hu as Hu'. destruct Hu' as [Hn Hd].
  apply bool_decide_eq_true in Hd.
  destruct (Hc Hf Hn) as [-> Hdir]. specialize (Hf1 Hf).
  rewrite writeFile_run.
  assert (Hfile : entry_at (disk w1) (file_location h) ≠ Some Dir).
  { rewrite file_in_folder, entry_at_snoc. rewrite file_in_folder, entry_at_snoc in Hd.
    destruct (H1 (folder_location h ++ [name])) as [->|(_ & _ & Hp)]; [done|].
    by apply prefix_snoc_not in Hp. }
  assert (Hparent : entry_at (disk w1) (removelast (file_location h)) = Some Dir)
    by by rewrite file_in_folder, removelast_last.
  rewrite (proj2 (writable_spec (disk w1))) by done.
  destruct w1 as [d1 fs1]. simpl in *.
  set (stored := File (Buffer.from_string content)).
  assert (Hgo : ∀ fs', no_faults (mkWorld (<[file_location h:=stored]> d1) fs') = true →
    (∀ q, <[file_location h:=stored]> d1 !! q = disk w !! q
          ∨ (disk w !! q = None ∧ <[file_location h:=stored]> d1 !! q = Some Dir
             ∧ q `prefix_of` folder_location h)
          ∨ (q = file_location h
             ∧ <[file_location h:=stored]> d1 !! q = Some stored)) →
    ∃ w', (Resolved tt, mkWorld (<[file_location h:=stored]> d1) fs')
          = (Resolved tt, w')
        ∧ content_at (disk w') (file_location h) = Some (Buffer.from_string content)
        ∧ usable (disk w') h = true
        ∧ no_faults w' = true).
  { intros fs' Hfs Hent. eexists. split; [done|]. simpl. split; [|split; [|done]].
    - unfold content_at. rewrite file_in_folder, entry_at_snoc.
      by rewrite lookup_insert_eq.
    - apply (usable_preserved (disk w)); [done| |].
      + intros q Hq. unfold is_file.
        destruct (Hent q) as [->|[(_ & -> & _)|[-> _]]]; [done|done|].
        by apply file_not_above_folder in Hq.
      + rewrite file_in_folder, entry_at_snoc. by rewrite lookup_insert_eq. }
  destruct fs1 as [|[e|] fs1]; simpl; [by apply Hgo|done|by apply Hgo].
Qed.

(** After [remove] resolved, nothing is left at the file location. *)
Lemma remove_clears (w w' : World) :
  CachedConfiguration.remove h w = (Resolved tt, w') →
  disk w' !! file_location h = None.
Proof.
  assert (Hbelow : folder_location h `prefix_of` file_location h)
    by (rewrite file_in_folder; by exists [name]).
  rewrite remove_run.
  destruct (faults w) as [|[e|] fs]; try done;
    (destruct (undeletable (disk w) folder); [done|]);
    intros Heq; inversion Heq; subst; simpl; rewrite lookup_rimraf;
    by rewrite decide_True.
Qed.

Lemma remove_calm (w : World) :
  no_faults w = true → usable (disk w) h = true →
  ∃ w', CachedConfiguration.remove h w = (Resolved tt, w')
        ∧ content_at (disk w') (file_location h) = None
        ∧ usable (disk w') h = true
        ∧ no_faults w' = true.
Proof.
  intros Hf Hu. pose proof (remove_no_faults w Hf) as Hf'.
  destruct (CachedConfiguration.remove h w) as [r w'] eqn:Hr.
  assert (r = Resolved tt) as ->.
  { rewrite remove_run, (usable_deletable _ Hu) in Hr.
    destruct w as [d [|[e|] fs]]; simpl in *; first [congruence | done]. }
  exists w'. split; [done|]. pose proof (remove_clears _ _ Hr) as Hc.
  split; [|split; [|done]].
  - unfold content_at. rewrite file_in_folder, entry_at_snoc.
    rewrite file_in_folder in Hc. by rewrite Hc.
  - assert (Hlk : ∀ q, disk w' !! q = disk w !! q ∨ disk w' !! q = None).
    { intros q. rewrite remove_run, (usable_deletable _ Hu) in Hr.
      destruct (faults w) as [|[e|] fs]; inversion Hr; subst; simpl;
        rewrite lookup_rimraf; case_decide; auto. }
    apply (usable_preserved (disk w)); [done| |].
    + intros q _. unfold is_file. by destruct (Hlk q) as [->| ->].
    + rewrite file_in_folder, entry_at_snoc. rewrite file_in_folder in Hc.
      by rewrite Hc.
Qed.

(** In a quiet environment [read] gives the stored bytes, decoded. *)
Lemma read_calm (w : World) :
  no_faults w = true →
  fst (CachedConfiguration.read h w)
  = Resolved (from_option Buffer.toString [] (content_at (disk w) (file_location h))).
Proof.
  intros Hf. rewrite read_run. simpl. f_equal.
  pose proof (readFile_run w) as Hr.
  destruct (pfs.readFile file w) as [r w1]. simpl in Hr. subst r.
  unfold readable, content_at. change (resolve file) with (file_location h).
  rewrite file_plain.
  destruct w as [d [|[e|] fs]]; simpl in *; try done;
    by destruct (entry_at d (file_location h)) as [[?|]|].
Qed.
End handle.

(** [save] changes the stored text at the handle's own file location only. *)
Lemma save_content_elsewhere (g : CachedConfiguration.t) (content : jsstring)
    (w : World) (q : location) :
  q ≠ file_location g →
  content_at (disk (snd (CachedConfiguration.save g content w))) q
  = content_at (disk w) q.
Proof.
  intros Hq. apply content_at_eq.
  destruct (save_entries g content w q) as [?|[(? & ? & _)|[? _]]]; auto; done.
Qed.

Lemma read_disk (g : CachedConfiguration.t) (w : World) :
  disk (snd (CachedConfiguration.read g w)) = disk w.
Proof. by rewrite read_run. Qed.

Lemma remove_entries (g : CachedConfiguration.t) (w : World) (q : location) :
  let w' := snd (CachedConfiguration.remove g w) in
  disk w' !! q = disk w !! q
  ∨ (disk w' !! q = None ∧ folder_location g `prefix_of` q).
Proof.
  simpl. rewrite remove_run.
  destruct (faults w) as [|[e|] fs]; simpl; try (by left);
    (destruct (undeletable (disk w) _); simpl; [by left|]);
    rewrite lookup_rimraf; case_decide; auto.
Qed.

Lemma apart_spec (p q : location) :
  apart p q = true ↔ ¬ p `prefix_of` q ∧ ¬ q `prefix_of` p.
Proof. unfold apart. by rewrite andb_true_iff, !bool_decide_eq_true. Qed.

(** ** Two handles whose directories lie apart do not disturb each other *)
Section frame.
Variables h g : CachedConfiguration.t.
Variables hname gname : string.
Hypothesis h_file : file_location h = folder_location h ++ [hname].
Hypothesis g_file : file_location g = folder_location g ++ [gname].
Hypothesis h_g_apart : apart (folder_location h) (folder_location g) = true.

Lemma apart_file_locations : file_location h ≠ file_location g.
Proof.
  rewrite h_file, g_file. intros [Heq _]%app_inj_tail.
  destruct (proj1 (apart_spec _ _) h_g_apart) as [Hn _]. apply Hn. by rewrite Heq.
Qed.

Lemma save_frame (content : jsstring) (w : World) :
  usable (disk w) h = true →
  usable (disk (snd (CachedConfiguration.save g content w))) h = true
  ∧ content_at (disk (snd (CachedConfiguration.save g content w))) (file_location h)
    = content_at (disk w) (file_location h).
Proof.
  intros Hu. destruct (proj1 (apart_spec _ _) h_g_apart) as [Hhg Hgh]. split.
  - apply (usable_preserved h (disk w)); [done| |].
    + intros q Hq. unfold is_file.
      destruct (save_entries g content w q) as [->|[(_ & -> & _)|[-> _]]];
        [done|done|].
      exfalso. apply Hgh. rewrite g_file in Hq. by apply prefix_app_l in Hq.
    + destruct (save_entries g content w (file_location h))
        as [Heq|[(_ & _ & Hp)|[_ Heq]]].
      * rewrite h_file, !entry_at_snoc. rewrite h_file in Heq. by rewrite Heq.
      * exfalso. apply Hhg. rewrite h_file in Hp. by apply prefix_app_l in Hp.
      * rewrite h_file, !entry_at_snoc. rewrite h_file in Heq. by rewrite Heq.
  - apply save_content_elsewhere, apart_file_locations.
Qed.

Lemma remove_frame (w : World) :
  usable (disk w) h = true →
  usable (disk (snd (CachedConfiguration.remove g w))) h = true
  ∧ content_at (disk (snd (CachedConfiguration.remove g w))) (file_location h)
    = content_at (disk w) (file_location h).
Proof.
  intros Hu. destruct (proj1 (apart_spec _ _) h_g_apart) as [Hhg Hgh]. split.
  - apply (usable_preserved h (disk w)); [done| |].
    + intros q _. unfold is_file.
      by destruct (remove_entries g w q) as [->|[-> _]].
    + rewrite h_file, !entry_at_snoc.
      by destruct (remove_entries g w (folder_location h ++ [hname])) as [->|[-> _]].
  - unfold content_at. rewrite h_file, !entry_at_snoc.
    destruct (remove_entries g w (folder_location h ++ [hname])) as [->|[_ Hp]]; [done|].
    exfalso. apply prefix_snoc_inv in Hp as [Hp|Hp]; [done|].
    apply Hhg. rewrite Hp. by exists [hname].
Qed.
End frame.

(* ===================================================================== *)
(** * ConfigurationCache: the memoized handles *)
(* ===================================================================== *)

Lemma handle_of_eq (k : ConfigurationKey) (c : ConfigurationCache.t) :
  handle_of c k
  = match ConfigurationCache.cachedConfigurations c !! ConfigurationCache.composite k with
    | Some h => h
    | None => CachedConfiguration.new k (ConfigurationCache.environmentService c)
    end.
Proof.
  unfold handle_of, ConfigurationCache.getCachedConfiguration.
  by destruct (_ !! _).
Qed.

Lemma getCachedConfiguration_env (k : ConfigurationKey) (c : ConfigurationCache.t) :
  ConfigurationCache.environmentService (snd (ConfigurationCache.getCachedConfiguration k c))
  = ConfigurationCache.environmentService c.
Proof. unfold ConfigurationCache.getCachedConfiguration. by destruct (_ !! _). Qed.

(** After the call the handle is memoized under the composite string, and
    no other entry of the map has changed. *)
Lemma getCachedConfiguration_lookup (k : ConfigurationKey) (c : ConfigurationCache.t)
    (str : string) :
  ConfigurationCache.cachedConfigurations
    (snd (ConfigurationCache.getCachedConfiguration k c)) !! str
  = if decide (str = ConfigurationCache.composite k) then Some (handle_of c k)
    else ConfigurationCache.cachedConfigurations c !! str.
Proof.
  rewrite handle_of_eq. unfold ConfigurationCache.getCachedConfiguration.
  destruct (_ !! ConfigurationCache.composite k) as [h|] eqn:Hl; simpl.
  - case_decide as Hs; [by subst|done].
  - case_decide as Hs; [subst; by rewrite lookup_insert_eq|by rewrite lookup_insert_ne].
Qed.

(** A memoized handle is never replaced. *)
Lemma getCachedConfiguration_keeps (k : ConfigurationKey) (c : ConfigurationCache.t)
    (str : string) (h : CachedConfiguration.t) :
  ConfigurationCache.cachedConfigurations c !! str = Some h →
  ConfigurationCache.cachedConfigurations
    (snd (ConfigurationCache.getCachedConfiguration k c)) !! str = Some h.
Proof.
  intros Hl. rewrite getCachedConfiguration_lookup. case_decide as Hs; [|done].
  subst. by rewrite handle_of_eq, Hl.
Qed.

Lemma read_eq (k : ConfigurationKey) (s : State) :
  read k s
  = (fst (CachedConfiguration.read (handle_of (cache s) k) (world s)),
     mkState (snd (ConfigurationCache.getCachedConfiguration k (cache s)))
             (snd (CachedConfiguration.read (handle_of (cache s) k) (world s)))).
Proof.
  unfold read, call, ConfigurationCache.read, handle_of.
  destruct (ConfigurationCache.getCachedConfiguration k (cache s)) as [h c']. simpl.
  by destruct (CachedConfiguration.read h (world s)).
Qed.

Lemma write_eq (k : ConfigurationKey) (content : jsstring) (s : State) :
  write k content s
  = (fst (CachedConfiguration.save (handle_of (cache s) k) content (world s)),
     mkState (snd (ConfigurationCache.getCachedConfiguration k (cache s)))
             (snd (CachedConfiguration.save (handle_of (cache s) k) content (world s)))).
Proof.
  unfold write, call, ConfigurationCache.write, handle_of.
  destruct (ConfigurationCache.getCachedConfiguration k (cache s)) as [h c']. simpl.
  by destruct (CachedConfiguration.save h content (world s)).
Qed.

Lemma remove_eq (k : ConfigurationKey) (s : State) :
  remove k s
  = (fst (CachedConfiguration.remove (handle_of (cache s) k) (world s)),
     mkState (snd (ConfigurationCache.getCachedConfiguration k (cache s)))
             (snd (CachedConfiguration.remove (handle_of (cache s) k) (world s)))).
Proof.
  unfold remove, call, ConfigurationCache.remove, handle_of.
  destruct (ConfigurationCache.getCachedConfiguration k (cache s)) as [h c']. simpl.
  by destruct (CachedConfiguration.remove h (world s)).
Qed.

(** Whatever the operation, the cache object afterwards is the one
    [getCachedConfiguration] leaves. *)
Lemma exec_cache (o : Op) (s : State) :
  cache (exec o s) = snd (ConfigurationCache.getCachedConfiguration (op_key o) (cache s)).
Proof. destruct o; simpl; by rewrite ?read_eq, ?write_eq, ?remove_eq. Qed.

Lemma built_new (env : INativeEnvironmentService) : built env (ConfigurationCache.new env).
Proof. split; [done|]. intros str h. simpl. by rewrite lookup_empty. Qed.

Lemma built_getCachedConfiguration (env : INativeEnvironmentService)
    (k : ConfigurationKey) (c : ConfigurationCache.t) :
  built env c → built env (snd (ConfigurationCache.getCachedConfiguration k c)).
Proof.
  intros [He Hb]. split; [by rewrite getCachedConfiguration_env|].
  intros str h. rewrite getCachedConfiguration_lookup. case_decide as Hs; [|by apply Hb].
  intros [= <-]. rewrite handle_of_eq.
  destruct (_ !! ConfigurationCache.composite k) as [h|] eqn:Hl.
  - subst str. by apply Hb.
  - exists k. by rewrite He.
Qed.

Lemma built_run (env : INativeEnvironmentService) (ops : list Op) (s : State) :
  built env (cache s) → built env (cache (run ops s)).
Proof.
  revert s. induction ops as [|o ops IH]; intros s Hb; [done|].
  simpl. apply IH. rewrite exec_cache. by apply built_getCachedConfiguration.
Qed.

(** In a cache reached from a fresh one, every key resolves to a handle
    the constructor built for a key with the same composite string. *)
Lemma handle_of_built (env : INativeEnvironmentService) (c : ConfigurationCache.t)
    (k : ConfigurationKey) :
  built env c →
  ∃ k', ConfigurationCache.composite k' = ConfigurationCache.composite k
        ∧ handle_of c k = CachedConfiguration.new k' env.
Proof.
  intros [He Hb]. rewrite handle_of_eq.
  destruct (_ !! ConfigurationCache.composite k) as [h|] eqn:Hl.
  - by apply Hb.
  - exists k. by rewrite He.
Qed.

Lemma handle_of_built_file (env : INativeEnvironmentService) (c : ConfigurationCache.t)
    (k : ConfigurationKey) :
  built env c →
  ∃ name, file_location (handle_of c k) = folder_location (handle_of c k) ++ [name].
Proof.
  intros Hb. destruct (handle_of_built env c k Hb) as (k' & _ & ->).
  eexists. apply file_location_new.
Qed.

Lemma handle_of_built_plain (env : INativeEnvironmentService) (c : ConfigurationCache.t)
    (k : ConfigurationKey) :
  built env c →
  dir_only (CachedConfiguration.cachedConfigurationFilePath (handle_of c k)) = false.
Proof.
  intros Hb. destruct (handle_of_built env c k Hb) as (k' & _ & ->).
  apply file_plain_new.
Qed.

(** ** Keys whose type holds no colon *)

(** The memoization string determines type and key when the types hold no
    [":"]. *)
Lemma composite_plain_inj (t t' k k' : string) :
  has_char ":" t = false → has_char ":" t' = false →
  t +:+ ":" +:+ k = t' +:+ ":" +:+ k' → t = t' ∧ k = k'.
Proof.
  revert t'. induction t as [|c t IH]; intros [|c' t']; cbn [has_char String.append].
  - intros _ _ Heq. by injection Heq.
  - intros _ [Hc _]%orb_false_iff Heq. injection Heq as Heq _. by subst c'.
  - intros [Hc _]%orb_false_iff _ Heq. injection Heq as Heq _. by subst c.
  - intros [_ Ht]%orb_false_iff [_ Ht']%orb_false_iff Heq.
    injection Heq as -> Heq. by destruct (IH t' Ht Ht' Heq) as [-> ->].
Qed.

Lemma composite_inj (k k' : ConfigurationKey) :
  colon_free k = true → colon_free k' = true →
  ConfigurationCache.composite k = ConfigurationCache.composite k' → k = k'.
Proof.
  unfold colon_free. rewrite !negb_true_iff. intros Hc Hc' Heq.
  destruct (composite_plain_inj _ _ _ _ Hc Hc' Heq) as [H1 H2].
  destruct k, k'. simpl in *. by subst.
Qed.

Lemma owned_new (env : INativeEnvironmentService) : owned env (ConfigurationCache.new env).
Proof. split; [done|]. intros str h. simpl. by rewrite lookup_empty. Qed.

Lemma owned_handle (env : INativeEnvironmentService) (c : ConfigurationCache.t)
    (k : ConfigurationKey) :
  owned env c → colon_free k = true → handle_of c k = CachedConfiguration.new k env.
Proof.
  intros [He Ho] Hk. rewrite handle_of_eq.
  destruct (_ !! ConfigurationCache.composite k) as [h|] eqn:Hl; [|by rewrite He].
  destruct (Ho _ _ Hl) as (k' & Hk' & Hcomp & ->).
  by rewrite (composite_inj k' k Hk' Hk Hcomp).
Qed.

Lemma owned_getCachedConfiguration (env : INativeEnvironmentService)
    (k : ConfigurationKey) (c : ConfigurationCache.t) :
  owned env c → colon_free k = true →
  owned env (snd (ConfigurationCache.getCachedConfiguration k c)).
Proof.
  intros Hown Hk. split; [rewrite getCachedConfiguration_env; by destruct Hown|].
  intros str h. rewrite getCachedConfiguration_lookup.
  case_decide as Hs; [|by apply Hown].
  intros [= <-]. exists k. split; [done|]. split; [done|]. by apply owned_handle.
Qed.

Lemma owned_run (env : INativeEnvironmentService) (ops : list Op) (s : State) :
  owned env (cache s) →
  forallb (λ o, colon_free (op_key o)) ops = true →
  owned env (cache (run ops s)).
Proof.
  revert s. induction ops as [|o ops IH]; intros s Hown Hops; [done|].
  simpl in Hops. apply andb_true_iff in Hops as [Ho Hops].
  simpl. apply IH; [|done]. rewrite exec_cache. by apply owned_getCachedConfiguration.
Qed.

(** Resolving a key leaves the handle of every key with another string. *)
Lemma handle_of_other (k1 k2 : ConfigurationKey) (c : ConfigurationCache.t) :
  ConfigurationCache.composite k1 ≠ ConfigurationCache.composite k2 →
  handle_of (snd (ConfigurationCache.getCachedConfiguration k1 c)) k2 = handle_of c k2.
Proof.
  intros Hne. rewrite !handle_of_eq, getCachedConfiguration_lookup, getCachedConfiguration_env.
  by rewrite decide_False.
Qed.

(** Two different keys made of plain names are independent. *)
Lemma plain_independent (env : INativeEnvironmentService) (k k' : ConfigurationKey) :
  plain_key k = true → plain_key k' = true → k ≠ k' → independent env k k' = true.
Proof.
  unfold plain_key. rewrite !andb_true_iff.
  intros [[Ht Hc] Hk] [[Ht' Hc'] Hk'] Hne.
  unfold independent. apply andb_true_iff. split.
  - apply bool_decide_eq_true. intros Heq. apply Hne. symmetry. by apply composite_inj.
  - rewrite !folder_location_plain by done.
    assert (Hdiff : [type k; key k] ≠ [type k'; key k']).
    { intros [= H1 H2]. apply Hne. destruct k, k'. simpl in *. by subst. }
    apply apart_spec. split; intros [l Hl];
      rewrite <- !app_assoc in Hl; apply app_inv_head in Hl; simpl in Hl;
      injection Hl as H1 H2 H3; apply Hdiff; by rewrite H1, H2.
Qed.

(* ===================================================================== *)
(** * The cache against its reference behaviour *)
(* ===================================================================== *)

Section refinement.
Variable env : INativeEnvironmentService.
Variable k : ConfigurationKey.

Let hk := CachedConfiguration.new k env.

Lemma tracked_new : tracked env k (ConfigurationCache.new env).
Proof. split; [done|]. intros str h. simpl. by rewrite lookup_empty. Qed.

Lemma tracked_handle (c : ConfigurationCache.t) :
  tracked env k c → handle_of c k = hk.
Proof.
  intros [He Hc]. rewrite handle_of_eq.
  destruct (_ !! ConfigurationCache.composite k) as [h|] eqn:Hl.
  - apply Hc in Hl. by rewrite decide_True in Hl.
  - by rewrite He.
Qed.

Lemma tracked_other_handle (c : ConfigurationCache.t) (k' : ConfigurationKey) :
  tracked env k c → independent env k k' = true →
  ∃ k'', handle_of c k' = CachedConfiguration.new k'' env
         ∧ apart (folder_location hk) (folder_location (handle_of c k')) = true.
Proof.
  intros [He Hc] [Hne Hap]%andb_true_iff.
  apply bool_decide_eq_true in Hne. rewrite handle_of_eq.
  destruct (_ !! ConfigurationCache.composite k') as [h|] eqn:Hl.
  - apply Hc in Hl. by rewrite decide_False in Hl.
  - exists k'. by rewrite He.
Qed.

(** Resolving an allowed key keeps the handle map in order. *)
Lemma tracked_getCachedConfiguration (c : ConfigurationCache.t) (k' : ConfigurationKey) :
  tracked env k c →
  bool_decide (k' = k) || independent env k k' = true →
  tracked env k (snd (ConfigurationCache.getCachedConfiguration k' c)).
Proof.
  intros Htr Hal. split.
  { rewrite getCachedConfiguration_env. by destruct Htr. }
  intros str h. rewrite getCachedConfiguration_lookup.
  destruct (decide (str = ConfigurationCache.composite k')) as [Hs|Hs];
    [|by apply (proj2 Htr)].
  intros [= <-]. apply orb_true_iff in Hal as [Hk|Hind].
  - apply bool_decide_eq_true in Hk. subst k'.
    rewrite decide_True by done. by apply tracked_handle.
  - pose proof Hind as [Hne _]%andb_true_iff. apply bool_decide_eq_true in Hne.
    subst str. rewrite decide_False by done.
    by apply tracked_other_handle.
Qed.

Lemma tracked_exec (o : Op) (s : State) :
  tracked env k (cache s) → allowed env k o = true → tracked env k (cache (exec o s)).
Proof. intros Htr Hal. rewrite exec_cache. by apply tracked_getCachedConfiguration. Qed.

Lemma follows_start (w : World) :
  no_faults w = true → usable (disk w) hk = true →
  follows env k (content_at (disk w) (file_location hk)) (start env w).
Proof. intros Hf Hu. split; [apply tracked_new|done]. Qed.

(** A read of [k] returns what the reference behaviour has stored. *)
Lemma follows_read (stored : option string) (s : State) :
  follows env k stored s →
  fst (read k s) = Resolved (from_option Buffer.toString [] stored).
Proof.
  intros (Htr & Hf & _ & <-). rewrite read_eq. simpl.
  rewrite (tracked_handle _ Htr). apply read_calm; [apply file_plain_new|done].
Qed.

Lemma follows_cache (stored' : option string) (s : State) (w' : World)
    (k' : ConfigurationKey) :
  tracked env k (cache s) →
  bool_decide (k' = k) || independent env k k' = true →
  no_faults w' = true →
  usable (disk w') hk = true →
  content_at (disk w') (file_location hk) = stored' →
  follows env k stored'
    (mkState (snd (ConfigurationCache.getCachedConfiguration k' (cache s))) w').
Proof.
  intros Htr Hal Hf Hu Hc. split; [|done].
  by apply tracked_getCachedConfiguration.
Qed.

(** One allowed operation keeps the state in step with the reference
    behaviour. *)
Lemma follows_exec (stored : option string) (s : State) (o : Op) :
  follows env k stored s → allowed env k o = true →
  follows env k (denote k o stored) (exec o s).
Proof.
  intros Hfol Hal. unfold allowed in Hal.
  pose proof Hfol as (Htr & Hf & Hu & Hc).
  destruct (decide (op_key o = k)) as [Hk|Hk].
  - pose proof (tracked_handle _ Htr) as Hh.
    pose proof (file_location_new k env) as Hfile. fold hk in Hfile.
    destruct o as [k'|k' content|k']; simpl in Hk; subst k'; simpl.
    + rewrite read_eq. simpl. rewrite Hh.
      apply (follows_cache stored s _ k Htr Hal).
      * by apply read_no_faults.
      * by rewrite read_disk.
      * by rewrite read_disk.
    + rewrite write_eq. simpl. rewrite Hh. rewrite decide_True by done.
      destruct (save_calm hk _ Hfile (file_plain_new k env) content (world s) Hf Hu)
        as (w' & -> & Hc' & Hu' & Hf').
      by apply (follows_cache _ s _ k Htr Hal).
    + rewrite remove_eq. simpl. rewrite Hh. rewrite decide_True by done.
      destruct (remove_calm hk _ Hfile (world s) Hf Hu)
        as (w' & -> & Hc' & Hu' & Hf').
      by apply (follows_cache _ s _ k Htr Hal).
  - rewrite bool_decide_eq_false_2 in Hal by done. simpl in Hal.
    destruct (tracked_other_handle _ _ Htr Hal) as (k'' & Hh & Hap).
    pose proof (file_location_new k env) as Hfile. fold hk in Hfile.
    pose proof (file_location_new k'' env) as Hfile'. rewrite <- Hh in Hfile'.
    assert (Hal' : bool_decide (op_key o = k) || independent env k (op_key o) = true)
      by by rewrite Hal, orb_true_r.
    destruct o as [k'|k' content|k']; simpl in Hk, Hal, Hh, Hap, Hfile', Hal'; simpl.
    + rewrite read_eq. simpl.
      apply (follows_cache stored s _ k' Htr Hal').
      * by apply read_no_faults.
      * by rewrite read_disk.
      * by rewrite read_disk.
    + rewrite write_eq. simpl. rewrite decide_False by done.
      destruct (save_frame hk _ _ _ Hfile Hfile' Hap content (world s) Hu) as [Hu' Hc'].
      apply (follows_cache stored s _ k' Htr Hal').
      * by apply save_no_faults.
      * done.
      * by rewrite Hc'.
    + rewrite remove_eq. simpl. rewrite decide_False by done.
      destruct (remove_frame hk _ _ Hfile Hap (world s) Hu) as [Hu' Hc'].
      apply (follows_cache stored s _ k' Htr Hal').
      * by apply remove_no_faults.
      * done.
      * by rewrite Hc'.
Qed.

(** A history of allowed operations keeps the state in step with the
    reference behaviour. *)
Lemma follows_run (ops : list Op) (stored : option string) (s : State) :
  follows env k stored s → forallb (allowed env k) ops = true →
  follows env k (denote_all k ops stored) (run ops s).
Proof.
  revert stored s. induction ops as [|o ops IH]; intros stored s Hfol Hal; [done|].
  simpl in Hal. apply andb_true_iff in Hal as [Ho Hops].
  simpl. apply IH; [|done]. by apply follows_exec.
Qed.

End refinement.

(** ** The operations keep the disk a tree *)

Lemma tree_ok_spec (d : Disk) :
  tree_ok d = true ↔
  ∀ q e, d !! q = Some e → q ≠ [] ∧ entry_at d (removelast q) = Some Dir.
Proof. unfold tree_ok. by rewrite bool_decide_eq_true. Qed.

Lemma removelast_shorter (x : string) (q : location) : removelast (x :: q) ≠ x :: q.
Proof.
  intros Heq. apply (f_equal length) in Heq.
  destruct (exists_last (l := x :: q)) as (l' & a & Hl); [done|].
  rewrite Hl, removelast_last, length_app in Heq. simpl in Heq. lia.
Qed.

Lemma tree_ok_insert (d : Disk) (p : location) (e : entry) :
  tree_ok d = true → p ≠ [] →
  entry_at d (removelast p) = Some Dir → d !! p ≠ Some Dir →
  tree_ok (<[p := e]> d) = true.
Proof.
  rewrite !tree_ok_spec. intros Hok Hp Hpar Hnd q e' Hq.
  assert (Hkeep : ∀ r, r ≠ p → entry_at d r = Some Dir →
                       entry_at (<[p := e]> d) r = Some Dir).
  { intros r Hr. destruct r as [|y r]; [done|]. simpl. by rewrite lookup_insert_ne. }
  destruct (decide (q = p)) as [->|Hne].
  - split; [done|]. apply Hkeep; [|done].
    destruct p as [|x p]; [done|]. apply removelast_shorter.
  - rewrite lookup_insert_ne in Hq by done. destruct (Hok q e' Hq) as [Hq0 Hqp].
    split; [done|]. apply Hkeep; [|done]. intros Heq. rewrite Heq in Hqp.
    destruct p as [|x p]; [done|]. simpl in Hqp. done.
Qed.

Lemma mkdirp_walk_tree_ok (todo : list string) (d d' : Disk) (base : location)
    (r : outcome unit) :
  tree_ok d = true → entry_at d base = Some Dir →
  mkdirp_walk d base todo = (r, d') → tree_ok d' = true.
Proof.
  revert d base. induction todo as [|seg todo IH]; intros d base Hok Hbase Hw; simpl in Hw.
  - congruence.
  - destruct (d !! (base ++ [seg])) as [[c|]|] eqn:Hp; [congruence| |].
    + apply (IH d (base ++ [seg])); [done| |done]. by rewrite entry_at_snoc.
    + apply (IH (<[base ++ [seg] := Dir]> d) (base ++ [seg])); [| |done].
      * apply tree_ok_insert; [done| | |].
        -- by destruct base.
        -- by rewrite removelast_last.
        -- by rewrite Hp.
      * by rewrite entry_at_snoc, lookup_insert_eq.
Qed.

Lemma rimraf_tree_ok (d : Disk) (p : location) :
  tree_ok d = true →
  tree_ok (filter (λ kv : list string * entry, ¬ p `prefix_of` kv.1) d) = true.
Proof.
  rewrite !tree_ok_spec. intros Hok q e. rewrite lookup_rimraf.
  case_decide as Hp; [done|]. intros Hq. destruct (Hok q e Hq) as [Hq0 Hpar].
  split; [done|]. destruct (removelast q) as [|y r] eqn:Hr; [done|].
  simpl. rewrite lookup_rimraf. rewrite decide_False; [done|].
  intros Hpre. apply Hp. etrans; [exact Hpre|]. rewrite <- Hr.
  destruct (exists_last (l := q)) as (l' & a & ->); [done|].
  rewrite removelast_last. by exists [a].
Qed.

(** Every operation of the cache keeps the disk a tree. *)
Lemma exec_tree_ok (o : Op) (s : State) :
  tree_ok (disk (world s)) = true → tree_ok (disk (world (exec o s))) = true.
Proof.
  intros Hok. destruct o as [k|k content|k]; simpl.
  - rewrite read_eq. simpl. by rewrite read_disk.
  - rewrite write_eq. simpl. set (h := handle_of (cache s) k).
    rewrite save_eq, createCachedFolder_eq.
    assert (Hmk : ∀ fs,
      match then2 (pfs.mkdirp (CachedConfiguration.cachedConfigurationFolderPath h))
              (λ _, resolved true) (λ _, resolved false) (mkWorld (disk (world s)) fs)
      with (_, w1) => tree_ok (disk w1) = true end).
    { intros fs. rewrite mkdirp_then_run.
      destruct fs as [|[e|] fs]; try done;
        destruct (mkdirp_walk _ _ _) as [[?|e'] d'] eqn:Hw;
        simpl; by eapply (mkdirp_walk_tree_ok _ _ _ []). }
    assert (Hwr : ∀ w1, tree_ok (disk w1) = true →
      tree_ok (disk (snd (pfs.writeFile
                            (CachedConfiguration.cachedConfigurationFilePath h)
                            content w1))) = true).
    { intros w1 Hw1. rewrite writeFile_run.
      destruct (writable (disk w1) (CachedConfiguration.cachedConfigurationFilePath h))
        as [[]|e'] eqn:Hwr; [|by destruct (faults w1) as [|[e|] fs]].
      apply writable_spec in Hwr as (_ & Hnd & Hpar).
      assert (Hins : tree_ok (<[file_location h := File (Buffer.from_string content)]>
                                (disk w1)) = true).
      { destruct (file_location h) as [|x p] eqn:Hloc; [done|].
        by apply tree_ok_insert. }
      by destruct (faults w1) as [|[e|] fs]. }
    assert (Hcases : ∀ r w1, tree_ok (disk w1) = true →
      tree_ok (disk (snd (match r with
                          | Resolved true =>
                              pfs.writeFile
                                (CachedConfiguration.cachedConfigurationFilePath h)
                                content w1
                          | Resolved false => (Resolved tt, w1)
                          | Rejected e => (Rejected e, w1)
                          end))) = true).
    { intros [[|]|e] w1 Hw1; [by apply Hwr|done|done]. }
    destruct (faults (world s)) as [|[e|] fs].
    + destruct (present _ _); [by apply (Hcases (Resolved true))|].
      specialize (Hmk (tail [])). destruct (then2 _ _ _ _) as [r w1].
      by apply Hcases.
    + specialize (Hmk fs). destruct (then2 _ _ _ _) as [r w1]. by apply Hcases.
    + destruct (present _ _); [by apply (Hcases (Resolved true))|].
      specialize (Hmk (tail (None :: fs))). destruct (then2 _ _ _ _) as [r w1].
      by apply Hcases.
  - rewrite remove_eq. simpl. rewrite remove_run.
    destruct (faults (world s)) as [|[e|] fs]; simpl; try done;
      (destruct (undeletable _ _); simpl; [done|]); by apply rimraf_tree_ok.
Qed.

(** So does every history: the states the cache reaches from a tree are
    trees. *)
Lemma run_tree_ok (ops : list Op) (s : State) :
  tree_ok (disk (world s)) = true → tree_ok (disk (world (run ops s))) = true.
Proof.
  revert s. induction ops as [|o ops IH]; intros s Hok; [done|].
  simpl. by apply IH, exec_tree_ok.
Qed.

(* ===================================================================== *)
(** * Properties of the cache: auxiliary facts *)
(* ===================================================================== *)

(** Once a handle is memoized under a string, every later state resolves
    that string to it. *)
Lemma memoized_forever (ops : list Op) (s : State) (str : string) (h : CachedConfiguration.t) :
  ConfigurationCache.cachedConfigurations (cache s) !! str = Some h →
  ConfigurationCache.cachedConfigurations (cache (run ops s)) !! str = Some h.
Proof.
  revert s. induction ops as [|o ops IH]; intros s Hl; [done|].
  simpl. apply IH. rewrite exec_cache. by apply getCachedConfiguration_keeps.
Qed.

Lemma handle_of_memoized (c : ConfigurationCache.t) (k : ConfigurationKey)
    (h : CachedConfiguration.t) :
  ConfigurationCache.cachedConfigurations c !! ConfigurationCache.composite k = Some h →
  handle_of c k = h ∧ ConfigurationCache.getCachedConfiguration k c = (h, c).
Proof.
  intros Hl. rewrite handle_of_eq, Hl. split; [done|].
  unfold ConfigurationCache.getCachedConfiguration. by rewrite Hl.
Qed.

(** What [read] settles with: the stored bytes, decoded, unless an error
    is injected or no regular file answers to the handle's file path. *)
Lemma read_value (h : CachedConfiguration.t) (w : World) :
  dir_only (CachedConfiguration.cachedConfigurationFilePath h) = false →
  fst (CachedConfiguration.read h w)
  = Resolved (match next_injected w with
              | Some _ => []
              | None => from_option Buffer.toString []
                          (content_at (disk w) (file_location h))
              end).
Proof.
  intros Hplain. rewrite read_run. simpl. f_equal.
  pose proof (readFile_run h w) as Hr.
  destruct (pfs.readFile _ w) as [r w1]. simpl in Hr. subst r.
  unfold next_injected, content_at, readable. rewrite Hplain.
  change (resolve (CachedConfiguration.cachedConfigurationFilePath h))
    with (file_location h).
  destruct (faults w) as [|[e|] fs]; try done;
    by destruct (entry_at (disk w) (file_location h)) as [[?|]|].
Qed.

Lemma read_absent (h : CachedConfiguration.t) (w : World) :
  content_at (disk w) (file_location h) = None →
  fst (CachedConfiguration.read h w) = Resolved [].
Proof.
  intros Hc. rewrite read_run. simpl. f_equal.
  pose proof (readFile_run h w) as Hr.
  destruct (pfs.readFile _ w) as [r w1]. simpl in Hr. subst r.
  destruct (readable_absent h (disk w) Hc) as [e ->].
  by destruct (faults w) as [|[e'|] fs].
Qed.

(** A read that no injected error hits returns the bytes stored for the
    key, decoded, or the empty string when there are none. *)
Lemma read_stored (k : ConfigurationKey) (s : State) :
  dir_only (CachedConfiguration.cachedConfigurationFilePath (handle_of (cache s) k))
  = false →
  next_injected (world s) = None →
  fst (read k s) = Resolved (from_option Buffer.toString [] (stored_text s k)).
Proof. intros Hp Hq. rewrite read_eq. simpl. by rewrite read_value, Hq. Qed.

Lemma remove_content_none (g : CachedConfiguration.t) (w : World) (q : location) :
  content_at (disk w) q = None →
  content_at (disk (snd (CachedConfiguration.remove g w))) q = None.
Proof.
  unfold content_at, entry_at. destruct q as [|x q]; [done|].
  by destruct (remove_entries g w (x :: q)) as [->|[-> _]].
Qed.

(** A history that never writes to a location leaves it without stored
    text if it had none, whatever the environment injects. *)
Lemma never_written_run (p : location) (ops : list Op) (s : State) :
  content_at (disk (world s)) p = None →
  never_written p ops s = true →
  content_at (disk (world (run ops s))) p = None.
Proof.
  revert s. induction ops as [|o ops IH]; intros s Hc Hn; [done|].
  simpl in Hn. apply andb_true_iff in Hn as [Ho Hops]. apply negb_true_iff in Ho.
  simpl. apply IH; [|done]. destruct o as [k'|k' content|k']; simpl.
  - rewrite read_eq. simpl. by rewrite read_disk.
  - rewrite write_eq. simpl. rewrite save_content_elsewhere; [done|].
    apply bool_decide_eq_false in Ho. congruence.
  - rewrite remove_eq. simpl. by apply remove_content_none.
Qed.

(** [remove] of a handle whose directory lies apart leaves the stored
    text alone, whatever the environment injects. *)
Lemma remove_content_apart (h g : CachedConfiguration.t) (hname : string) (w : World) :
  file_location h = folder_location h ++ [hname] →
  apart (folder_location h) (folder_location g) = true →
  content_at (disk (snd (CachedConfiguration.remove g w))) (file_location h)
  = content_at (disk w) (file_location h).
Proof.
  intros Hfile [Hhg Hgh]%apart_spec.
  unfold content_at. rewrite Hfile, !entry_at_snoc.
  destruct (remove_entries g w (folder_location h ++ [hname])) as [->|[_ Hp]]; [done|].
  exfalso. apply prefix_snoc_inv in Hp as [Hp|Hp]; [done|].
  apply Hhg. rewrite Hp. by exists [hname].
Qed.

(** [remove] changes the stored text only at locations at or below the
    directory it deletes. *)
Lemma remove_content_elsewhere (g : CachedConfiguration.t) (w : World) (q : location) :
  ¬ folder_location g `prefix_of` q →
  content_at (disk (snd (CachedConfiguration.remove g w))) q = content_at (disk w) q.
Proof.
  intros Hq. unfold content_at, entry_at. destruct q as [|x q]; [done|].
  by destruct (remove_entries g w (x :: q)) as [->|[_ Hp]].
Qed.

Lemma writeFile_stores (h : CachedConfiguration.t) (content : jsstring) (w : World) :
  fst (pfs.writeFile (CachedConfiguration.cachedConfigurationFilePath h) content w)
  = Resolved tt →
  content_at (disk (snd (pfs.writeFile
                           (CachedConfiguration.cachedConfigurationFilePath h) content w)))
             (file_location h)
  = Some (Buffer.from_string content)
  ∧ dir_only (CachedConfiguration.cachedConfigurationFilePath h) = false.
Proof.
  rewrite writeFile_run.
  destruct (writable (disk w) (CachedConfiguration.cachedConfigurationFilePath h))
    as [[]|e'] eqn:Hwr; [|by destruct (faults w) as [|[e|] fs]].
  apply writable_spec in Hwr as (Hplain & Hnd & Hpar).
  assert (Hloc : file_location h ≠ []) by (intros Hnil; by rewrite Hnil in Hnd).
  assert (Hst : content_at (<[file_location h := File (Buffer.from_string content)]> (disk w))
                  (file_location h) = Some (Buffer.from_string content)).
  { unfold content_at. destruct (file_location h) as [|x p]; [done|].
    cbn [entry_at]. by rewrite lookup_insert_eq. }
  by destruct (faults w) as [|[e|] fs].
Qed.

(** [createCachedFolder], step by step: the existence check, and [mkdirp]
    when the check does not report [true]. *)
Lemma createCachedFolder_steps (h : CachedConfiguration.t) (w : World) :
  CachedConfiguration.createCachedFolder h w
  = match pfs.exists_ (CachedConfiguration.cachedConfigurationFolderPath h) w with
    | (Resolved true, w0) => (Resolved true, w0)
    | (_, w0) =>
        match pfs.mkdirp (CachedConfiguration.cachedConfigurationFolderPath h) w0 with
        | (Resolved _, w1) => (Resolved true, w1)
        | (Rejected _, w1) => (Resolved false, w1)
        end
    end.
Proof.
  unfold CachedConfiguration.createCachedFolder, bind, then2, resolved.
  destruct (pfs.exists_ _ w) as [[[|]|e0] w0]; try done;
    by destruct (pfs.mkdirp _ w0) as [[u|e] w1].
Qed.

Lemma createCachedFolder_false_iff (h : CachedConfiguration.t) (w : World) :
  fst (CachedConfiguration.createCachedFolder h w) = Resolved false ↔
  fst (pfs.exists_ (CachedConfiguration.cachedConfigurationFolderPath h) w) ≠ Resolved true
  ∧ ∃ e, fst (pfs.mkdirp (CachedConfiguration.cachedConfigurationFolderPath h)
                 (snd (pfs.exists_ (CachedConfiguration.cachedConfigurationFolderPath h) w)))
         = Rejected e.
Proof.
  rewrite createCachedFolder_steps.
  destruct (pfs.exists_ _ w) as [[[|]|e0] w0]; simpl;
    try (destruct (pfs.mkdirp _ w0) as [[u|e] w1]; simpl);
    split; try done; try (intros [? [? ?]]; done); try (intros [? ?]; done);
    intros _; split; eauto; done.
Qed.

Lemma tracked_run (env : INativeEnvironmentService) (k : ConfigurationKey)
    (ops : list Op) (s : State) :
  tracked env k (cache s) → forallb (allowed env k) ops = true →
  tracked env k (cache (run ops s)).
Proof.
  revert s. induction ops as [|o ops IH]; intros s Htr Hal; [done|].
  simpl in Hal. apply andb_true_iff in Hal as [Ho Hops].
  simpl. apply IH; [|done]. by apply tracked_exec.
Qed.

(** Operations that are allowed for [k] and neither write nor remove it
    leave the text stored at [k]'s file location as it is, whatever the
    environment injects. *)
Lemma kept_exec (env : INativeEnvironmentService) (k : ConfigurationKey)
    (o : Op) (s : State) :
  tracked env k (cache s) →
  allowed env k o = true → keeps k o = true →
  content_at (disk (world (exec o s))) (file_location (CachedConfiguration.new k env))
  = content_at (disk (world s)) (file_location (CachedConfiguration.new k env)).
Proof.
  intros Htr Hal Hk.
  pose proof (file_location_new k env) as Hfile.
  assert (Hother : ∀ k', k' ≠ k → bool_decide (k' = k) || independent env k k' = true →
    ∃ k'', handle_of (cache s) k' = CachedConfiguration.new k'' env
           ∧ apart (folder_location (CachedConfiguration.new k env))
                   (folder_location (handle_of (cache s) k')) = true).
  { intros k' Hne Hal'. rewrite bool_decide_eq_false_2 in Hal' by done.
    by apply tracked_other_handle. }
  destruct o as [k'|k' content|k']; simpl.
  - rewrite read_eq. simpl. by rewrite read_disk.
  - rewrite write_eq. simpl. simpl in Hk. apply bool_decide_eq_true in Hk.
    destruct (Hother k' Hk Hal) as (k'' & Hh & Hap).
    apply save_content_elsewhere.
    pose proof (file_location_new k'' env) as Hfile'. rewrite <- Hh in Hfile'.
    by apply (apart_file_locations _ _ _ _ Hfile Hfile' Hap).
  - rewrite remove_eq. simpl. simpl in Hk. apply bool_decide_eq_true in Hk.
    destruct (Hother k' Hk Hal) as (k'' & Hh & Hap).
    by eapply remove_content_apart.
Qed.

Lemma kept_run (env : INativeEnvironmentService) (k : ConfigurationKey)
    (ops : list Op) (s : State) :
  tracked env k (cache s) →
  forallb (allowed env k) ops = true → forallb (keeps k) ops = true →
  content_at (disk (world (run ops s))) (file_location (CachedConfiguration.new k env))
  = content_at (disk (world s)) (file_location (CachedConfiguration.new k env)).
Proof.
  revert s. induction ops as [|o ops IH]; intros s Htr Hal Hk; [done|].
  simpl in Hal, Hk. apply andb_true_iff in Hal as [Ho Hops].
  apply andb_true_iff in Hk as [Hko Hkops].
  simpl. rewrite IH; [by apply kept_exec|by apply tracked_exec|done|done].
Qed.

(** A write that is carried out resolves and leaves exactly the bytes of
    its content at the file location of the key's handle; the key stays
    with that handle. *)
Lemma carried_out_stores (k : ConfigurationKey) (content : jsstring) (s : State) :
  carried_out k content s = true →
  fst (write k content s) = Resolved tt
  ∧ handle_of (cache (snd (write k content s))) k = handle_of (cache s) k
  ∧ content_at (disk (world (snd (write k content s))))
               (file_location (handle_of (cache s) k))
    = Some (Buffer.from_string content).
Proof.
  unfold carried_out. rewrite write_eq. simpl. rewrite save_eq.
  destruct (CachedConfiguration.createCachedFolder _ (world s)) as [[[|]|e] w1]; try done.
  intros Hw%bool_decide_eq_true. split; [done|]. split.
  - apply handle_of_memoized. rewrite getCachedConfiguration_lookup.
    by rewrite decide_True.
  - by apply writeFile_stores in Hw as [Hst _].
Qed.

(** ... and the path of the file it wrote does not ask for a directory. *)
Lemma carried_out_plain (k : ConfigurationKey) (content : jsstring) (s : State) :
  carried_out k content s = true →
  dir_only (CachedConfiguration.cachedConfigurationFilePath (handle_of (cache s) k))
  = false.
Proof.
  unfold carried_out.
  destruct (CachedConfiguration.createCachedFolder _ (world s)) as [[[|]|e] w1]; try done.
  intros Hw%bool_decide_eq_true. by apply writeFile_stores in Hw as [_ Hp].
Qed.

(** A history that does not touch what a memoized handle stores leaves the
    stored text and the memoization as they are, whatever the environment
    injects. *)
Lemma undisturbed_run (h : CachedConfiguration.t) (k : ConfigurationKey)
    (ops : list Op) (s : State) :
  ConfigurationCache.cachedConfigurations (cache s) !! ConfigurationCache.composite k
  = Some h →
  undisturbed h ops s = true →
  handle_of (cache (run ops s)) k = h
  ∧ content_at (disk (world (run ops s))) (file_location h)
    = content_at (disk (world s)) (file_location h).
Proof.
  revert s. induction ops as [|o ops IH]; intros s Hm Hu.
  - split; [by apply handle_of_memoized|done].
  - simpl in Hu. apply andb_true_iff in Hu as [Ho Hops]. apply negb_true_iff in Ho.
    assert (Hm' : ConfigurationCache.cachedConfigurations (cache (exec o s))
                  !! ConfigurationCache.composite k = Some h).
    { rewrite exec_cache. by apply getCachedConfiguration_keeps. }
    destruct (IH (exec o s) Hm' Hops) as [Hh Hc]. simpl. split; [done|].
    rewrite Hc. destruct o as [k'|k' content|k']; simpl in *.
    + rewrite read_eq. simpl. by rewrite read_disk.
    + rewrite write_eq. simpl. apply save_content_elsewhere.
      apply bool_decide_eq_false in Ho. congruence.
    + rewrite remove_eq. simpl. apply remove_content_elsewhere.
      by apply bool_decide_eq_false in Ho.
Qed.

(** In a quiet environment, on usable storage, a write is carried out. *)
Lemma follows_carried_out (env : INativeEnvironmentService) (k : ConfigurationKey)
    (stored : option string) (s : State) (content : jsstring) :
  follows env k stored s → carried_out k content s = true.
Proof.
  intros (Htr & Hf & Hu & _). unfold carried_out.
  rewrite (tracked_handle env k _ Htr).
  pose proof (file_location_new k env) as Hfile.
  destruct (save_calm _ _ Hfile (file_plain_new k env) content (world s) Hf Hu)
    as (w' & Hsave & _).
  rewrite save_eq in Hsave.
  apply andb_true_iff in Hu as [Hn _].
  destruct (createCachedFolder_run (CachedConfiguration.new k env) (world s))
    as (created & w1 & Hrun & _ & _ & _ & _ & Hc).
  destruct (Hc Hf Hn) as [-> _]. rewrite Hrun in *.
  apply bool_decide_eq_true. by rewrite Hsave.
Qed.

(** After [remove] resolved, nothing is left at or below the directory. *)
Lemma remove_clears_below (h : CachedConfiguration.t) (w w' : World) (q : location) :
  CachedConfiguration.remove h w = (Resolved tt, w') →
  folder_location h `prefix_of` q →
  disk w' !! q = None.
Proof.
  rewrite remove_run. intros Heq Hp.
  destruct (faults w) as [|[e|] fs]; try done;
    (destruct (undeletable (disk w) _); [done|]);
    inversion Heq; subst; simpl; rewrite lookup_rimraf; by rewrite decide_True.
Qed.

(** Among keys made of plain names, every operation is allowed for every
    key, and the handle map stays in order. *)
Lemma plain_allowed (env : INativeEnvironmentService) (k : ConfigurationKey) (o : Op) :
  plain_key k = true → plain_key (op_key o) = true → allowed env k o = true.
Proof.
  intros Hk Ho. unfold allowed. destruct (decide (op_key o = k)) as [Heq|Hne].
  - by rewrite bool_decide_eq_true_2.
  - rewrite plain_independent by done. apply orb_true_r.
Qed.

Lemma plain_tracked (env : INativeEnvironmentService) (w : World) (k : ConfigurationKey)
    (ops : list Op) :
  plain_key k = true →
  forallb (λ o, plain_key (op_key o)) ops = true →
  tracked env k (cache (run ops (start env w))).
Proof.
  intros Hk Hops. apply tracked_run; [apply tracked_new|].
  apply forallb_forall. intros o Ho. apply plain_allowed; [done|].
  by apply (proj1 (forallb_forall _ _) Hops).
Qed.

(** [save] after an existence check that was hit by an error: the
    directory is created all the same and the file is written. *)
Lemma save_after_failed_check (h : CachedConfiguration.t) (name : string)
    (d : Disk) (e : errno) (fs : list (option errno)) (content : jsstring) :
  file_location h = folder_location h ++ [name] →
  dir_only (CachedConfiguration.cachedConfigurationFilePath h) = false →
  calm 2 fs = true → usable d h = true →
  ∃ w1, CachedConfiguration.createCachedFolder h (mkWorld d (Some e :: fs))
        = (Resolved true, w1)
        ∧ fst (pfs.writeFile (CachedConfiguration.cachedConfigurationFilePath h) content w1)
          = Resolved tt.
Proof.
  intros Hfile Hplain Hcalm Hu. apply andb_true_iff in Hu as [Hn Hd].
  apply bool_decide_eq_true in Hd.
  rewrite createCachedFolder_eq. simpl. rewrite mkdirp_then_run.
  destruct (mkdirp_walk_succeeds _ _ _ Hn) as [d' Hw].
  destruct (mkdirp_walk_folder h _ _ _ Hw) as [Hent Hdir]. specialize (Hdir eq_refl).
  assert (Hwrite : ∀ fs', calm 1 fs' = true →
    fst (pfs.writeFile (CachedConfiguration.cachedConfigurationFilePath h) content
           (mkWorld d' fs')) = Resolved tt).
  { intros fs' Hfs'. rewrite writeFile_run. simpl.
    assert (Hf : entry_at d' (file_location h) ≠ Some Dir).
    { rewrite Hfile, entry_at_snoc. rewrite Hfile, entry_at_snoc in Hd.
      destruct (Hent (folder_location h ++ [name])) as [->|(_ & _ & Hp)]; [done|].
      by apply prefix_snoc_not in Hp. }
    assert (Hp : entry_at d' (removelast (file_location h)) = Some Dir)
      by by rewrite Hfile, removelast_last.
    rewrite (proj2 (writable_spec h d')) by done.
    by destruct fs' as [|[e'|] fs']. }
  destruct fs as [|[e'|] fs]; [|done|]; rewrite Hw; eexists; (split; [done|]);
    apply Hwrite; [done|].
  unfold calm in *. simpl in Hcalm. by destruct fs.
Qed.

(** [save] when a regular file sits at the handle's directory location.
    When the directory path asks for a directory the existence check
    fails, [mkdirp] fails, and the write is skipped; otherwise the
    existence check passes and the overwrite rejects. *)
Lemma save_file_at_folder (h : CachedConfiguration.t) (name : string)
    (w : World) (c : string) (content : jsstring) :
  file_location h = folder_location h ++ [name] →
  content_at (disk w) (folder_location h) = Some c →
  fst (CachedConfiguration.save h content w)
  = (match next_injected w with
     | Some _ => Resolved tt
     | None =>
         if dir_only (CachedConfiguration.cachedConfigurationFolderPath h)
         then Resolved tt
         else
           match next_injected (mkWorld (disk w) (tail (faults w))) with
           | Some e => Rejected e
           | None => match entry_at (disk w) (file_location h) with
                     | Some Dir => Rejected EISDIR
                     | _ => Rejected ENOTDIR
                     end
           end
     end)
  ∧ ∀ q, content_at (disk (snd (CachedConfiguration.save h content w))) q
         = content_at (disk w) q.
Proof.
  intros Hfile Hc. unfold content_at in Hc.
  destruct (entry_at (disk w) (folder_location h)) as [[c'|]|] eqn:Hf; try done.
  assert (Hne : folder_location h ≠ []) by (intros Hnil; by rewrite Hnil in Hf).
  assert (Hfails : ∃ e d', mkdirp_walk (disk w) [] (folder_location h) = (Rejected e, d')
                           ∧ ∀ q, content_at d' q = content_at (disk w) q).
  { destruct (mkdirp_walk (disk w) [] (folder_location h)) as [r d'] eqn:Hw.
    destruct (mkdirp_walk_folder h _ _ _ Hw) as [Hent Hdir].
    assert (Hcont : ∀ q, content_at d' q = content_at (disk w) q).
    { intros q. apply content_at_eq. destruct (Hent q) as [?|(? & ? & _)]; auto. }
    destruct r as [[]|e]; [|by eauto]. exfalso.
    specialize (Hdir eq_refl). specialize (Hcont (folder_location h)).
    unfold content_at in Hcont. by rewrite Hdir, Hf in Hcont. }
  destruct Hfails as (e0 & d0 & Hfails & Hcont).
  assert (Hpresent : present (disk w) (CachedConfiguration.cachedConfigurationFolderPath h)
                     = negb (dir_only (CachedConfiguration.cachedConfigurationFolderPath h))).
  { unfold present.
    change (resolve (CachedConfiguration.cachedConfigurationFolderPath h))
      with (folder_location h). by rewrite Hf. }
  assert (Hwritable : writable (disk w) (CachedConfiguration.cachedConfigurationFilePath h)
                      = match entry_at (disk w) (file_location h) with
                        | Some Dir => Rejected EISDIR
                        | _ => Rejected ENOTDIR
                        end).
  { unfold writable.
    change (resolve (CachedConfiguration.cachedConfigurationFilePath h))
      with (file_location h).
    assert (Hpar : removelast (file_location h) = folder_location h)
      by by rewrite Hfile, removelast_last.
    rewrite Hpar, Hf.
    by destruct (entry_at (disk w) (file_location h)) as [[?|]|]. }
  rewrite save_eq, createCachedFolder_eq. unfold next_injected.
  destruct w as [d [|[e|] fs]]; simpl in *.
  - rewrite Hpresent.
    destruct (dir_only (CachedConfiguration.cachedConfigurationFolderPath h)); simpl.
    + rewrite mkdirp_then_run, Hfails. by split.
    + rewrite writeFile_run. simpl. rewrite Hwritable.
      by destruct (entry_at d (file_location h)) as [[?|]|].
  - rewrite mkdirp_then_run.
    destruct fs as [|[e'|] fs]; [|done|]; rewrite Hfails; by split.
  - rewrite Hpresent.
    destruct (dir_only (CachedConfiguration.cachedConfigurationFolderPath h)); simpl.
    + rewrite mkdirp_then_run.
      destruct fs as [|[e'|] fs]; [|done|]; rewrite Hfails; by split.
    + rewrite writeFile_run. simpl. rewrite Hwritable.
      destruct fs as [|[e'|] fs]; [|done|];
        by destruct (entry_at d (file_location h)) as [[?|]|].
Qed.

(** ** A directory that is not there *)

Lemma nothing_below_iff (d : Disk) (p : location) :
  nothing_below d p = true ↔ ∀ q e, d !! q = Some e → ¬ p `prefix_of` q.
Proof. unfold nothing_below. by rewrite bool_decide_eq_true. Qed.

(** Deleting where nothing is leaves the disk as it is. *)
Lemma rimraf_nothing (d : Disk) (p : location) :
  nothing_below d p = true →
  filter (λ kv : list string * entry, ¬ p `prefix_of` kv.1) d = d.
Proof.
  intros Hnb. apply map_filter_id. intros q e Hq.
  by apply (proj1 (nothing_below_iff d p) Hnb q e).
Qed.

(** One operation that stays clear of a location leaves it with nothing
    at or below it and no regular file on the way to it. *)
Lemma absent_exec (p : location) (o : Op) (s : State) :
  nothing_below (disk (world s)) p = true →
  no_file_along (disk (world s)) [] p = true →
  clear_of p [o] s = true →
  nothing_below (disk (world (exec o s))) p = true
  ∧ no_file_along (disk (world (exec o s))) [] p = true.
Proof.
  rewrite !nothing_below_iff, !no_file_along_spec. intros Hnb Hnf Hcl.
  simpl in Hcl. rewrite andb_true_r in Hcl.
  destruct o as [k'|k' content|k']; simpl.
  - rewrite read_eq. simpl. by rewrite read_disk.
  - rewrite write_eq. simpl.
    apply andb_true_iff in Hcl as [Hfo [Hpf Hfp]%apart_spec].
    apply bool_decide_eq_true in Hfo.
    set (g := handle_of (cache s) k') in *.
    pose proof (save_entries g content (world s)) as Hent. simpl in Hent. split.
    + intros q e Hq Hp. destruct (Hent q) as [Heq|[(_ & _ & Hpre)|[-> _]]].
      * rewrite Heq in Hq. by apply (Hnb q e).
      * apply Hfo. by etrans.
      * done.
    + intros q Hq Hn. unfold is_file.
      destruct (Hent q) as [->|[(_ & -> & _)|[-> _]]]; [by apply Hnf|done|done].
  - rewrite remove_eq. simpl.
    set (g := handle_of (cache s) k') in *.
    pose proof (remove_entries g (world s)) as Hent. simpl in Hent. split.
    + intros q e Hq. destruct (Hent q) as [Heq|[Heq _]]; [|congruence].
      rewrite Heq in Hq. by apply (Hnb q e).
    + intros q Hq Hn. unfold is_file.
      destruct (Hent q) as [->|[-> _]]; [by apply Hnf|done].
Qed.

Lemma absent_run (p : location) (ops : list Op) (s : State) :
  nothing_below (disk (world s)) p = true →
  no_file_along (disk (world s)) [] p = true →
  clear_of p ops s = true →
  nothing_below (disk (world (run ops s))) p = true
  ∧ no_file_along (disk (world (run ops s))) [] p = true.
Proof.
  revert s. induction ops as [|o ops IH]; intros s Hnb Hnf Hcl; [done|].
  cbn [clear_of] in Hcl. apply andb_true_iff in Hcl as [Ho Hops].
  destruct (absent_exec p o s Hnb Hnf) as [Hnb' Hnf'].
  { cbn [clear_of]. by rewrite Ho. }
  simpl. by apply IH.
Qed.

(** [remove] of a directory that is not there, when no error is
    injected: a success that changes nothing. *)
Lemma remove_absent (h : CachedConfiguration.t) (w : World) :
  nothing_below (disk w) (folder_location h) = true →
  no_file_along (disk w) [] (folder_location h) = true →
  next_injected w = None →
  fst (CachedConfiguration.remove h w) = Resolved tt
  ∧ disk (snd (CachedConfiguration.remove h w)) = disk w.
Proof.
  intros Hnb Hnf Hq. rewrite remove_run.
  assert (Hdel : undeletable (disk w) (CachedConfiguration.cachedConfigurationFolderPath h)
                 = false).
  { unfold undeletable.
    change (resolve (CachedConfiguration.cachedConfigurationFolderPath h))
      with (folder_location h).
    destruct (folder_location h) as [|x l] eqn:Hl; [done|].
    rewrite entry_at_cons, (nothing_below_spec _ _ _ Hnb) by done. by rewrite Hnf. }
  rewrite Hdel. unfold next_injected in Hq.
  destruct (faults w) as [|[e|] fs]; [|done|]; simpl; by rewrite rimraf_nothing.
Qed.

(* ===================================================================== *)
(** * Properties of the cache *)
(* ===================================================================== *)

(** C1, as stated, fails in four ways, every call resolving.  With a
    regular file in the place of the user-data directory (on a disk that
    is a tree) the key's directory cannot be created and the write is
    skipped; an error injected into [readFile] is swallowed by [read]; a
    write to a key memoized under the same string replaces what was
    written; and a content with an unpaired surrogate is stored as the
    encoding of U+FFFD, which is what comes back.  Each time the read does
    not return the key's last written content. *)
Lemma write_then_read_differs :
  let env := mkEnv "/home/user/data" in
  let k := mkKey "folder" "1f2e3d" in
  let blocked := start env (mkWorld {[ ["home"] := Dir; ["home"; "user"] := Dir;
                                       ["home"; "user"; "data"] := File "taken" ]} []) in
  let failing := start env (mkWorld ∅ [None; None; None; Some EIO]) in
  let k1 := mkKey "a:b" "c" in
  let k2 := mkKey "a" "b:c" in
  let shared := run [OpWrite k2 (js "mine"); OpWrite k1 (js "theirs")]
                    (start env (mkWorld ∅ [])) in
  let fresh := start env (mkWorld ∅ []) in
  (tree_ok (disk (world blocked)) = true
   ∧ fst (write k (js "text") blocked) = Resolved tt
   ∧ fst (read k (snd (write k (js "text") blocked))) = Resolved [])
  ∧ (fst (write k (js "text") failing) = Resolved tt
     ∧ fst (read k (snd (write k (js "text") failing))) = Resolved [])
  ∧ (k1 ≠ k2 ∧ fst (read k2 shared) = Resolved (js "theirs"))
  ∧ (carried_out k [55296%N] fresh = true
     ∧ fst (read k (snd (write k [55296%N] fresh))) = Resolved [65533%N]).
Proof. by vm_compute. Qed.

(** C1, amended.  When a write of a key is carried out (the key's
    directory is there or gets created, and the file overwrite resolves)
    and no later operation, on whatever key, writes the file it wrote or
    removes a directory holding that file, a read of the key that no
    injected error hits resolves with the content of that write as it
    comes back from its UTF-8 encoding: with exactly that content when it
    is a well-formed string.  This holds from every state and whatever the
    environment injects into the operations in between. *)
Theorem read_returns_last_write (k : ConfigurationKey) (content : jsstring)
    (after : list Op) (s : State) :
  let h := handle_of (cache s) k in
  let s' := run after (snd (write k content s)) in
  carried_out k content s = true →
  undisturbed h after (snd (write k content s)) = true →
  next_injected (world s') = None →
  fst (read k s') = Resolved (Buffer.toString (Buffer.from_string content))
  ∧ (well_formed content = true → fst (read k s') = Resolved content).
Proof.
  intros h s' Hco Hun Hq.
  destruct (carried_out_stores k content s Hco) as (_ & _ & Hst). fold h in Hst.
  pose proof (carried_out_plain k content s Hco) as Hplain. fold h in Hplain.
  assert (Hm : ConfigurationCache.cachedConfigurations (cache (snd (write k content s)))
               !! ConfigurationCache.composite k = Some h).
  { rewrite write_eq. simpl. rewrite getCachedConfiguration_lookup.
    by rewrite decide_True. }
  destruct (undisturbed_run h k after _ Hm Hun) as [Hh Hc]. fold s' in Hh, Hc.
  assert (Hread : fst (read k s')
                  = Resolved (Buffer.toString (Buffer.from_string content))).
  { rewrite read_stored; [|by rewrite Hh|done].
    unfold stored_text. by rewrite Hh, Hc, Hst. }
  split; [done|]. intros Hwf. by rewrite Hread, toString_from_string.
Qed.

Lemma read_returns_last_write_witness :
  let env := mkEnv "/home/user/data" in
  let k := mkKey "folder" "1f2e3d" in
  let other := mkKey "workspaces" "77aa" in
  let s := run [OpWrite k (js "first"); OpWrite other (js "w1"); OpRemove k]
               (start env (mkWorld ∅ [None; Some EACCES])) in
  let after := [OpRead k; OpWrite other (js "w2"); OpRemove other; OpRead other] in
  let s' := run after (snd (write k (js "second") s)) in
  carried_out k (js "second") s = true
  ∧ undisturbed (handle_of (cache s) k) after (snd (write k (js "second") s)) = true
  ∧ next_injected (world s') = None
  ∧ well_formed (js "second") = true
  ∧ fst (read k s') = Resolved (js "second").
Proof.
  intros env k other s after s'.
  assert (H1 : carried_out k (js "second") s = true) by (vm_compute; reflexivity).
  assert (H2 : undisturbed (handle_of (cache s) k) after
                 (snd (write k (js "second") s)) = true)
    by (vm_compute; reflexivity).
  assert (H3 : next_injected (world s') = None) by (vm_compute; reflexivity).
  assert (H4 : well_formed (js "second") = true) by reflexivity.
  split; [exact H1|]. split; [exact H2|]. split; [exact H3|]. split; [exact H4|].
  exact (proj2 (read_returns_last_write k (js "second") after s H1 H2 H3) H4).
Defined.

(** C2, as stated, fails in its last part: a key that was never written
    can have text to read.  The keys [("folder", "x")] and
    [("folder", "x/")] keep their files at the same location, so after a
    write to the second a read of the first, which no operation ever
    wrote, resolves with that content; and a file that is at the key's
    file location when the cache starts is read as well. *)
Lemma never_written_key_reads_text :
  let env := mkEnv "/home/user/data" in
  let k := mkKey "folder" "x" in
  let other := mkKey "folder" "x/" in
  let ops := [OpWrite other (js "theirs"); OpRead k] in
  let s := run ops (start env (mkWorld ∅ [])) in
  let kept :=
    start env
      (mkWorld {[ ["home"] := Dir; ["home"; "user"] := Dir;
                  ["home"; "user"; "data"] := Dir;
                  ["home"; "user"; "data"; "CachedConfigurations"] := Dir;
                  ["home"; "user"; "data"; "CachedConfigurations"; "folder"] := Dir;
                  ["home"; "user"; "data"; "CachedConfigurations"; "folder"; "x"] := Dir;
                  ["home"; "user"; "data"; "CachedConfigurations"; "folder"; "x";
                   "configuration.json"] := File "kept" ]} []) in
  (k ≠ other
   ∧ forallb (λ o, negb (writes k o)) ops = true
   ∧ fst (read k s) = Resolved (js "theirs"))
  ∧ (tree_ok (disk (world kept)) = true
     ∧ fst (read k kept) = Resolved (js "kept")).
Proof. by vm_compute. Qed.

(** C2, amended.  [read] never rejects: in every state it resolves with
    some text.  When [readFile] rejects, for a missing file or for any
    other error, the text is the empty string; so it is when nothing is
    stored for the key, and in particular when nothing was at the key's
    file location to start with and no operation since has written to
    that location, through whatever key. *)
Theorem read_never_rejects (k : ConfigurationKey) (s : State) :
  ∃ text : jsstring,
    fst (read k s) = Resolved text
    ∧ (∀ e, fst (pfs.readFile
                   (CachedConfiguration.cachedConfigurationFilePath (handle_of (cache s) k))
                   (world s)) = Rejected e →
            text = [])
    ∧ (stored_text s k = None → text = [])
    ∧ (∀ (s0 : State) (ops : list Op),
         s = run ops s0 →
         content_at (disk (world s0)) (file_location (handle_of (cache s) k)) = None →
         never_written (file_location (handle_of (cache s) k)) ops s0 = true →
         text = []).
Proof.
  rewrite read_eq. simpl. rewrite read_run. simpl. eexists. split; [reflexivity|].
  assert (Habsent : stored_text s k = None →
    (let (o, _) := pfs.readFile
                     (CachedConfiguration.cachedConfigurationFilePath (handle_of (cache s) k))
                     (world s) in
     match o with Resolved c => Buffer.toString c | Rejected _ => [] end) = []).
  { intros Hst. pose proof (read_absent (handle_of (cache s) k) (world s) Hst) as Hr.
    rewrite read_run in Hr. simpl in Hr. by injection Hr. }
  split; [|split; [done|]].
  - intros e He. destruct (pfs.readFile _ (world s)) as [r w1]. simpl in He. by subst r.
  - intros s0 ops Hs Hc Hn. apply Habsent. unfold stored_text.
    rewrite Hs at 1. by apply never_written_run.
Qed.

Lemma read_never_rejects_witness :
  let env := mkEnv "/home/user/data" in
  let k := mkKey "folder" "1f2e3d" in
  let other := mkKey "workspaces" "77aa" in
  let s0 := start env (mkWorld ∅ [None; None; Some ENOSPC]) in
  let ops := [OpWrite other (js "{ folders }"); OpRead k; OpRemove k;
              OpWrite other (js "{}")] in
  let s := run ops s0 in
  content_at (disk (world s0)) (file_location (handle_of (cache s) k)) = None
  ∧ never_written (file_location (handle_of (cache s) k)) ops s0 = true
  ∧ fst (read k s) = Resolved [].
Proof.
  intros env k other s0 ops s.
  assert (H1 : content_at (disk (world s0)) (file_location (handle_of (cache s) k)) = None)
    by (vm_compute; reflexivity).
  assert (H2 : never_written (file_location (handle_of (cache s) k)) ops s0 = true)
    by (vm_compute; reflexivity).
  split; [exact H1|]. split; [exact H2|].
  destruct (read_never_rejects k s) as (text & Hread & _ & _ & Hnever).
  rewrite Hread. f_equal. exact (Hnever s0 ops eq_refl H1 H2).
Defined.

(** C3, as stated, fails: two distinct keys can share their storage.  The
    keys [("a:b", "c")] and [("a", "b:c")] are memoized under the same
    string ["a:b:c"], so a write to the first replaces what was stored for
    the second; the keys [("folder", "x/")] and [("folder", "x")] are
    memoized apart and still name the same file. *)
Lemma distinct_keys_interfere :
  let env := mkEnv "/home/user/data" in
  let k1 := mkKey "a:b" "c" in
  let k2 := mkKey "a" "b:c" in
  let s := run [OpWrite k2 (js "old")] (start env (mkWorld ∅ [])) in
  let k3 := mkKey "folder" "x/" in
  let k4 := mkKey "folder" "x" in
  let s' := run [OpWrite k4 (js "old")] (start env (mkWorld ∅ [])) in
  (k1 ≠ k2
   ∧ stored_text s k2 = Some "old"
   ∧ fst (write k1 (js "new") s) = Resolved tt
   ∧ stored_text (snd (write k1 (js "new") s)) k2 = Some "new"
   ∧ fst (read k2 (snd (write k1 (js "new") s))) = Resolved (js "new"))
  ∧ (k3 ≠ k4
     ∧ stored_text s' k4 = Some "old"
     ∧ fst (write k3 (js "new") s') = Resolved tt
     ∧ stored_text (snd (write k3 (js "new") s')) k4 = Some "new"
     ∧ fst (read k4 (snd (write k3 (js "new") s'))) = Resolved (js "new")).
Proof. by vm_compute. Qed.

(** C3, amended.  For two keys that are memoized under different strings
    and whose handles keep their files at different locations, a write to
    the first, however it settles, leaves the second key's handle and the
    text stored for the second key unchanged. *)
Theorem write_leaves_other_keys (k1 k2 : ConfigurationKey) (content : jsstring) (s : State) :
  ConfigurationCache.composite k1 ≠ ConfigurationCache.composite k2 →
  file_location (handle_of (cache s) k1) ≠ file_location (handle_of (cache s) k2) →
  handle_of (cache (snd (write k1 content s))) k2 = handle_of (cache s) k2
  ∧ stored_text (snd (write k1 content s)) k2 = stored_text s k2.
Proof.
  intros Hcomp Hloc. rewrite write_eq. simpl.
  assert (Hh : handle_of (snd (ConfigurationCache.getCachedConfiguration k1 (cache s))) k2
               = handle_of (cache s) k2).
  { rewrite !handle_of_eq, getCachedConfiguration_lookup, getCachedConfiguration_env.
    by rewrite decide_False. }
  split; [done|]. unfold stored_text. simpl. rewrite Hh.
  by apply save_content_elsewhere.
Qed.

Lemma write_leaves_other_keys_witness :
  let env := mkEnv "/home/user/data" in
  let k1 := mkKey "folder" "1f2e3d" in
  let k2 := mkKey "workspaces" "77aa" in
  let s := run [OpWrite k1 (js "one"); OpWrite k2 (js "two")] (start env (mkWorld ∅ [])) in
  ConfigurationCache.composite k1 ≠ ConfigurationCache.composite k2
  ∧ file_location (handle_of (cache s) k1) ≠ file_location (handle_of (cache s) k2)
  ∧ stored_text s k2 = Some "two"
  ∧ stored_text (snd (write k1 (js "three") s)) k2 = stored_text s k2.
Proof.
  intros env k1 k2 s.
  assert (H1 : ConfigurationCache.composite k1 ≠ ConfigurationCache.composite k2)
    by (vm_compute; discriminate).
  assert (H2 : file_location (handle_of (cache s) k1)
               ≠ file_location (handle_of (cache s) k2))
    by (vm_compute; discriminate).
  split; [exact H1|]. split; [exact H2|]. split; [by vm_compute|].
  exact (proj2 (write_leaves_other_keys k1 k2 (js "three") s H1 H2)).
Defined.

(** C4. Two keys whose strings [type:key] coincide share one handle: once
    the first has been resolved, the handle is memoized under the common
    string, the second resolves to that very handle without changing the
    cache, in every later state too, and [read], [write] and [remove] on
    the second key are the operations of the first key's handle. *)
Theorem same_composite_same_handle (k1 k2 : ConfigurationKey) (c : ConfigurationCache.t) :
  ConfigurationCache.composite k1 = ConfigurationCache.composite k2 →
  let h1 := fst (ConfigurationCache.getCachedConfiguration k1 c) in
  let c1 := snd (ConfigurationCache.getCachedConfiguration k1 c) in
  ConfigurationCache.cachedConfigurations c1 !! ConfigurationCache.composite k1 = Some h1
  ∧ ConfigurationCache.getCachedConfiguration k2 c1 = (h1, c1)
  ∧ ConfigurationCache.read k2 c1 = (CachedConfiguration.read h1, c1)
  ∧ (∀ content, ConfigurationCache.write k2 content c1
                = (CachedConfiguration.save h1 content, c1))
  ∧ ConfigurationCache.remove k2 c1 = (CachedConfiguration.remove h1, c1)
  ∧ ∀ (w : World) (ops : list Op),
      handle_of (cache (run ops (mkState c1 w))) k2 = h1
      ∧ handle_of (cache (run ops (mkState c1 w))) k1 = h1.
Proof.
  intros Hcomp h1 c1.
  assert (Hl : ConfigurationCache.cachedConfigurations c1
               !! ConfigurationCache.composite k1 = Some h1).
  { subst c1 h1. rewrite getCachedConfiguration_lookup. by rewrite decide_True. }
  assert (Hl2 : ConfigurationCache.cachedConfigurations c1
                !! ConfigurationCache.composite k2 = Some h1) by by rewrite <- Hcomp.
  destruct (handle_of_memoized _ _ _ Hl2) as [_ Hget].
  split; [done|]. split; [done|].
  unfold ConfigurationCache.read, ConfigurationCache.write, ConfigurationCache.remove.
  rewrite Hget. split; [done|]. split; [done|]. split; [done|].
  intros w ops. split.
  - apply handle_of_memoized, (memoized_forever ops (mkState c1 w)). done.
  - apply handle_of_memoized, (memoized_forever ops (mkState c1 w)). done.
Qed.

Lemma same_composite_same_handle_witness :
  let k1 := mkKey "a:b" "c" in
  let k2 := mkKey "a" "b:c" in
  let c := ConfigurationCache.new (mkEnv "/home/user/data") in
  let h1 := fst (ConfigurationCache.getCachedConfiguration k1 c) in
  let c1 := snd (ConfigurationCache.getCachedConfiguration k1 c) in
  k1 ≠ k2
  ∧ ConfigurationCache.composite k1 = ConfigurationCache.composite k2
  ∧ ConfigurationCache.getCachedConfiguration k2 c1 = (h1, c1)
  ∧ CachedConfiguration.cachedConfigurationFolderPath h1
    = "/home/user/data/CachedConfigurations/a:b/c".
Proof.
  intros k1 k2 c h1 c1.
  split; [done|]. split; [reflexivity|].
  split; [|reflexivity].
  exact (proj1 (proj2 (same_composite_same_handle k1 k2 c eq_refl))).
Defined.

(** C5. Whatever the history before it, and whatever the environment does
    afterwards: when [remove] of a key has resolved, the next [read] of
    that key resolves with the empty string. *)
Theorem read_after_remove (env : INativeEnvironmentService) (w : World) (ops : list Op)
    (k : ConfigurationKey) (s' : State) :
  remove k (run ops (start env w)) = (Resolved tt, s') →
  fst (read k s') = Resolved [].
Proof.
  set (s := run ops (start env w)). rewrite remove_eq. intros Heq.
  assert (Hb : built env (cache s)) by apply built_run, built_new.
  destruct (handle_of_built_file env (cache s) k Hb) as [name Hfile].
  set (h := handle_of (cache s) k) in *.
  destruct (CachedConfiguration.remove h (world s)) as [r w'] eqn:Hr.
  simpl in Heq. inversion Heq; subst r s'. clear Heq.
  pose proof (remove_clears h name Hfile _ _ Hr) as Hgone.
  rewrite read_eq. simpl.
  assert (Hh : handle_of (snd (ConfigurationCache.getCachedConfiguration k (cache s))) k = h).
  { apply handle_of_memoized. rewrite getCachedConfiguration_lookup.
    by rewrite decide_True. }
  rewrite Hh. apply read_absent. unfold content_at.
  by rewrite Hfile, entry_at_snoc, <- Hfile, Hgone.
Qed.

Lemma read_after_remove_witness :
  let env := mkEnv "/home/user/data" in
  let k := mkKey "folder" "1f2e3d" in
  let s := run [OpWrite k (js "{ settings }")] (start env (mkWorld ∅ [])) in
  fst (read k s) = Resolved (js "{ settings }")
  ∧ fst (remove k s) = Resolved tt
  ∧ fst (read k (snd (remove k s))) = Resolved [].
Proof.
  intros env k s.
  assert (Hremoved : fst (remove k s) = Resolved tt) by (vm_compute; reflexivity).
  split; [by vm_compute|]. split; [exact Hremoved|].
  apply (read_after_remove env (mkWorld ∅ []) [OpWrite k (js "{ settings }")] k).
  rewrite <- Hremoved. apply surjective_pairing.
Defined.

(** C6, as stated, fails when the second write is skipped, both writes
    resolving all the same.  With a regular file in the place of the
    user-data directory neither write stores anything and nothing is
    readable; with errors injected into [exists] and [mkdirp] of the second
    write the first content stays readable.  It fails, too, for a second
    content with an unpaired surrogate: what is readable then is U+FFFD. *)
Lemma second_write_not_readable :
  let env := mkEnv "/home/user/data" in
  let k := mkKey "folder" "1f2e3d" in
  let blocked := start env (mkWorld {[ ["home"] := Dir; ["home"; "user"] := Dir;
                                       ["home"; "user"; "data"] := File "taken" ]} []) in
  let failing := start env (mkWorld ∅ [None; None; None; Some EIO; Some EACCES]) in
  let fresh := start env (mkWorld ∅ []) in
  (tree_ok (disk (world blocked)) = true
   ∧ fst (write k (js "first") blocked) = Resolved tt
   ∧ fst (write k (js "second") (snd (write k (js "first") blocked))) = Resolved tt
   ∧ fst (read k (snd (write k (js "second") (snd (write k (js "first") blocked)))))
     = Resolved [])
  ∧ (fst (write k (js "first") failing) = Resolved tt
     ∧ fst (write k (js "second") (snd (write k (js "first") failing))) = Resolved tt
     ∧ fst (read k (snd (write k (js "second") (snd (write k (js "first") failing)))))
       = Resolved (js "first"))
  ∧ (fst (write k (js "first") fresh) = Resolved tt
     ∧ fst (write k [56320%N] (snd (write k (js "first") fresh))) = Resolved tt
     ∧ fst (read k (snd (write k [56320%N] (snd (write k (js "first") fresh)))))
       = Resolved [65533%N]).
Proof. by vm_compute. Qed.

(** C6, amended.  After a write of [c1] and then a write of [c2] to the
    same key, in any state and environment: when the second write is
    carried out, it resolves, what is stored for the key is exactly the
    UTF-8 encoding of [c2], with nothing of [c1] kept, and a read that no
    injected error hits resolves with [c2] as it comes back from that
    encoding: with [c2] itself when it is a well-formed string. *)
Theorem second_write_replaces_first (k : ConfigurationKey) (c1 c2 : jsstring) (s : State) :
  let s1 := snd (write k c1 s) in
  let s2 := snd (write k c2 s1) in
  carried_out k c2 s1 = true →
  fst (write k c2 s1) = Resolved tt
  ∧ stored_text s2 k = Some (Buffer.from_string c2)
  ∧ (next_injected (world s2) = None →
     fst (read k s2) = Resolved (Buffer.toString (Buffer.from_string c2))
     ∧ (well_formed c2 = true → fst (read k s2) = Resolved c2)).
Proof.
  intros s1 s2 Hco.
  destruct (carried_out_stores k c2 s1 Hco) as (Hres & Hh & Hst).
  pose proof (carried_out_plain k c2 s1 Hco) as Hplain.
  assert (Hs2 : stored_text s2 k = Some (Buffer.from_string c2)).
  { unfold stored_text. subst s2. by rewrite Hh. }
  split; [done|]. split; [done|].
  intros Hq.
  assert (Hread : fst (read k s2) = Resolved (Buffer.toString (Buffer.from_string c2))).
  { rewrite read_stored; [by rewrite Hs2| |done]. subst s2. by rewrite Hh. }
  split; [done|]. intros Hwf. by rewrite Hread, toString_from_string.
Qed.

Lemma second_write_replaces_first_witness :
  let env := mkEnv "/home/user/data" in
  let k := mkKey "workspaces" "77aa" in
  let s := start env (mkWorld ∅ []) in
  let s1 := snd (write k (js "a long first text") s) in
  let s2 := snd (write k (js "short") s1) in
  carried_out k (js "short") s1 = true
  ∧ stored_text s1 k = Some "a long first text"
  ∧ stored_text s2 k = Some "short"
  ∧ fst (read k s2) = Resolved (js "short").
Proof.
  intros env k s s1 s2.
  assert (H1 : carried_out k (js "short") s1 = true) by (vm_compute; reflexivity).
  destruct (second_write_replaces_first k (js "a long first text") (js "short") s H1)
    as (_ & Hst & Hrd).
  split; [exact H1|]. split; [by vm_compute|]. split; [exact Hst|].
  apply (proj2 (Hrd eq_refl)). reflexivity.
Defined.

(** C7, as stated, fails when a regular file sits at the key's directory
    path (on a disk that is a tree): the existence check passes, so no
    directory is created and none is there afterwards, the overwrite is
    attempted and rejects, and the rejection reaches the caller. *)
Lemma write_without_directory :
  let env := mkEnv "/home/user/data" in
  let k := mkKey "folder" "1f2e3d" in
  let d : Disk := {[ ["home"] := Dir; ["home"; "user"] := Dir;
                     ["home"; "user"; "data"] := Dir;
                     ["home"; "user"; "data"; "CachedConfigurations"] := Dir;
                     ["home"; "user"; "data"; "CachedConfigurations"; "folder"] := Dir;
                     ["home"; "user"; "data"; "CachedConfigurations"; "folder"; "1f2e3d"]
                       := File "stray" ]} in
  let s := start env (mkWorld d []) in
  let h := handle_of (cache s) k in
  tree_ok d = true
  ∧ fst (CachedConfiguration.createCachedFolder h (world s)) = Resolved true
  ∧ fst (write k (js "text") s) = Rejected ENOTDIR
  ∧ entry_at (disk (world (snd (write k (js "text") s)))) (folder_location h)
    = Some (File "stray").
Proof. by vm_compute. Qed.

(** C7, amended.  [write] first runs [createCachedFolder], which never
    rejects and stores no text anywhere.  When it reports [true] something
    is at the key's directory location (a directory, unless a regular file
    was there already), and [write] settles as overwriting the key's file
    does: if that resolves, the file holds exactly the encoding of the
    content.  It reports [false] exactly when the existence check did not
    say [true] and [mkdirp] then rejected; in that case [write] is skipped
    silently: it resolves, no file is written and no stored text changes;
    what the disk may have gained are directories on the way to the key's
    directory. *)
Theorem write_creates_folder_or_skips (k : ConfigurationKey) (content : jsstring) (s : State) :
  let h := handle_of (cache s) k in
  ∃ (created : bool) (w1 : World),
    CachedConfiguration.createCachedFolder h (world s) = (Resolved created, w1)
    ∧ (∀ q, content_at (disk w1) q = content_at (disk (world s)) q)
    ∧ (created = true →
         is_Some (entry_at (disk w1) (folder_location h))
         ∧ ((∀ c, entry_at (disk (world s)) (folder_location h) ≠ Some (File c)) →
            entry_at (disk w1) (folder_location h) = Some Dir)
         ∧ fst (write k content s)
           = fst (pfs.writeFile (CachedConfiguration.cachedConfigurationFilePath h) content w1)
         ∧ world (snd (write k content s))
           = snd (pfs.writeFile (CachedConfiguration.cachedConfigurationFilePath h) content w1)
         ∧ (fst (write k content s) = Resolved tt →
            content_at (disk (world (snd (write k content s)))) (file_location h)
            = Some (Buffer.from_string content)))
    ∧ (created = false ↔
         fst (pfs.exists_ (CachedConfiguration.cachedConfigurationFolderPath h) (world s))
         ≠ Resolved true
         ∧ ∃ e, fst (pfs.mkdirp (CachedConfiguration.cachedConfigurationFolderPath h)
                       (snd (pfs.exists_
                               (CachedConfiguration.cachedConfigurationFolderPath h)
                               (world s)))) = Rejected e)
    ∧ (created = false →
         fst (write k content s) = Resolved tt
         ∧ (∀ q, content_at (disk (world (snd (write k content s)))) q
                 = content_at (disk (world s)) q)
         ∧ (∀ q, disk (world (snd (write k content s))) !! q = disk (world s) !! q
                 ∨ (disk (world s) !! q = None
                    ∧ disk (world (snd (write k content s))) !! q = Some Dir
                    ∧ q `prefix_of` folder_location h))).
Proof.
  intros h. rewrite write_eq. fold h. simpl. rewrite save_eq.
  destruct (createCachedFolder_run h (world s))
    as (created & w1 & Hrun & Hent & Hex & Hcont & _).
  exists created, w1. rewrite Hrun. split; [done|]. split; [done|].
  split; [|split].
  - intros ->. split; [by apply Hex|]. split; [|split; [done|split; [done|]]].
    + intros Hnf. destruct (folder_location h) as [|x p] eqn:Hp; [done|].
      destruct (Hex eq_refl) as [en Hen]. cbn [entry_at] in *.
      destruct (Hent (x :: p)) as [Heq|(_ & Hd & _)]; [|done].
      destruct en as [c|]; [|done]. exfalso. apply (Hnf c). congruence.
    + intros Hres. by apply writeFile_stores in Hres as [Hst _].
  - rewrite <- createCachedFolder_false_iff, Hrun. simpl.
    split; [by intros ->|by intros [= ->]].
  - intros ->. split; [done|]. by split.
Qed.

Lemma write_creates_folder_or_skips_witness :
  let env := mkEnv "/home/user/data" in
  let k := mkKey "folder" "1f2e3d" in
  let s := start env (mkWorld {[ ["home"] := Dir; ["home"; "user"] := Dir;
                                 ["home"; "user"; "data"] := File "taken" ]} []) in
  fst (CachedConfiguration.createCachedFolder (handle_of (cache s) k) (world s))
  = Resolved false
  ∧ fst (write k (js "{ settings }") s) = Resolved tt
  ∧ ∀ q, content_at (disk (world (snd (write k (js "{ settings }") s)))) q
         = content_at (disk (world s)) q.
Proof.
  intros env k s.
  assert (Hc : fst (CachedConfiguration.createCachedFolder (handle_of (cache s) k) (world s))
               = Resolved false) by (vm_compute; reflexivity).
  split; [exact Hc|].
  destruct (write_creates_folder_or_skips k (js "{ settings }") s)
    as (created & w1 & Hrun & _ & _ & _ & Hskip).
  rewrite Hrun in Hc. simpl in Hc. injection Hc as ->.
  destruct (Hskip eq_refl) as (Hres & Hcont & _). by split.
Defined.

(** A write that is skipped: the user-data path is a regular file, so the
    key's directory cannot be created. *)
Example write_skipped_example :
  let env := mkEnv "/home/user/data" in
  let k := mkKey "folder" "1f2e3d" in
  let s := start env (mkWorld {[ ["home"] := Dir; ["home"; "user"] := Dir;
                                 ["home"; "user"; "data"] := File "taken" ]} []) in
  tree_ok (disk (world s)) = true
  ∧ fst (CachedConfiguration.createCachedFolder (handle_of (cache s) k) (world s))
    = Resolved false
  ∧ fst (write k (js "{ settings }") s) = Resolved tt
  ∧ map_to_list (disk (world (snd (write k (js "{ settings }") s))))
    = map_to_list (disk (world s))
  ∧ fst (read k (snd (write k (js "{ settings }") s))) = Resolved [].
Proof. by vm_compute. Qed.

(** C8. A rejection of the file-overwrite step of [write] and a rejection
    of the recursive delete of [remove] reach the caller unchanged, and
    both can happen.  [remove] is the recursive delete and nothing else, so
    it swallows no error; [read] and [write] each swallow one: there is a
    state where [readFile] rejects and [read] resolves, and one where
    [mkdirp] rejects and [write] resolves. *)
Theorem overwrite_and_remove_failures_propagate :
  (∀ (k : ConfigurationKey) (content : jsstring) (s : State) (w1 w2 : World) (e : errno),
     let h := handle_of (cache s) k in
     CachedConfiguration.createCachedFolder h (world s) = (Resolved true, w1) →
     pfs.writeFile (CachedConfiguration.cachedConfigurationFilePath h) content w1
     = (Rejected e, w2) →
     fst (write k content s) = Rejected e ∧ world (snd (write k content s)) = w2)
  ∧ (∀ (k : ConfigurationKey) (s : State),
       let h := handle_of (cache s) k in
       fst (remove k s)
       = fst (pfs.rimraf (CachedConfiguration.cachedConfigurationFolderPath h) (world s))
       ∧ world (snd (remove k s))
         = snd (pfs.rimraf (CachedConfiguration.cachedConfigurationFolderPath h) (world s)))
  ∧ (∃ (k : ConfigurationKey) (s : State),
       fst (write k (js "text") s) = Rejected ENOSPC)
  ∧ (∃ (k : ConfigurationKey) (s : State),
       fst (remove k s) = Rejected EBUSY)
  ∧ (∃ (k : ConfigurationKey) (s : State) (e : errno),
       fst (pfs.readFile
              (CachedConfiguration.cachedConfigurationFilePath (handle_of (cache s) k))
              (world s)) = Rejected e
       ∧ fst (read k s) = Resolved [])
  ∧ (∃ (k : ConfigurationKey) (s : State) (e : errno),
       fst (pfs.mkdirp
              (CachedConfiguration.cachedConfigurationFolderPath (handle_of (cache s) k))
              (snd (pfs.exists_
                      (CachedConfiguration.cachedConfigurationFolderPath
                         (handle_of (cache s) k))
                      (world s)))) = Rejected e
       ∧ fst (write k (js "text") s) = Resolved tt).
Proof.
  split; [|split; [|split; [|split; [|split]]]].
  - intros k content s w1 w2 e h Hc Hw. rewrite write_eq. fold h. simpl.
    by rewrite save_eq, Hc, Hw.
  - intros k s h. rewrite remove_eq. fold h. done.
  - exists (mkKey "folder" "1f2e3d"),
      (start (mkEnv "/home/user/data") (mkWorld ∅ [None; None; Some ENOSPC])).
    by vm_compute.
  - exists (mkKey "folder" "1f2e3d"),
      (run [OpWrite (mkKey "folder" "1f2e3d") (js "text")]
         (start (mkEnv "/home/user/data") (mkWorld ∅ [None; None; None; Some EBUSY]))).
    by vm_compute.
  - exists (mkKey "folder" "1f2e3d"),
      (start (mkEnv "/home/user/data") (mkWorld ∅ [])), ENOENT.
    by vm_compute.
  - exists (mkKey "folder" "1f2e3d"),
      (start (mkEnv "/home/user/data") (mkWorld ∅ [None; Some EACCES])), EACCES.
    by vm_compute.
Qed.

Lemma overwrite_and_remove_failures_propagate_witness :
  let env := mkEnv "/home/user/data" in
  let k := mkKey "folder" "1f2e3d" in
  let s := start env (mkWorld ∅ [None; None; Some ENOSPC]) in
  let h := handle_of (cache s) k in
  let w1 := snd (CachedConfiguration.createCachedFolder h (world s)) in
  fst (CachedConfiguration.createCachedFolder h (world s)) = Resolved true
  ∧ fst (pfs.writeFile (CachedConfiguration.cachedConfigurationFilePath h) (js "text") w1)
    = Rejected ENOSPC
  ∧ fst (write k (js "text") s) = Rejected ENOSPC.
Proof.
  intros env k s h w1.
  assert (H1 : fst (CachedConfiguration.createCachedFolder h (world s)) = Resolved true)
    by (vm_compute; reflexivity).
  assert (H2 : fst (pfs.writeFile (CachedConfiguration.cachedConfigurationFilePath h)
                      (js "text") w1) = Rejected ENOSPC)
    by (vm_compute; reflexivity).
  split; [exact H1|]. split; [exact H2|].
  refine (proj1 (proj1 overwrite_and_remove_failures_propagate k (js "text") s w1
                   (snd (pfs.writeFile (CachedConfiguration.cachedConfigurationFilePath h)
                           (js "text") w1)) ENOSPC _ _)).
  - rewrite <- H1. apply surjective_pairing.
  - rewrite <- H2. apply surjective_pairing.
Defined.

(** C9, as stated, fails: [remove] of a key that was never written can
    reject.  The key [("folder", "")] keeps its directory where the
    directories of all keys of its type are made, so after a write to
    another key that directory exists, and an error met while deleting it
    reaches the caller; and with a regular file in the place of the
    user-data directory (on a disk that is a tree) the delete of a key
    never written cannot start. *)
Lemma remove_of_unwritten_key_rejects :
  let env := mkEnv "/home/user/data" in
  let k := mkKey "folder" "" in
  let other := mkKey "folder" "1f2e3d" in
  let ops := [OpWrite other (js "{ settings }")] in
  let s := run ops (start env (mkWorld ∅ [None; None; None; Some EBUSY])) in
  let blocked := start env (mkWorld {[ ["home"] := Dir; ["home"; "user"] := Dir;
                                       ["home"; "user"; "data"] := File "taken" ]} []) in
  (k ≠ other
   ∧ forallb (λ o, negb (writes k o)) ops = true
   ∧ fst (remove k s) = Rejected EBUSY)
  ∧ (tree_ok (disk (world blocked)) = true
     ∧ fst (remove other blocked) = Rejected ENOTDIR).
Proof. by vm_compute. Qed.

(** C9, amended.  Take a state in which nothing is recorded at or below
    the location of a key's directory and no regular file is on the way to
    it, and a history none of whose writes goes through a handle that
    keeps its directory at or below that location, or its file at, below
    or on the way to it.  After the history the directory is still not
    there, and [remove] of the key, when no error is injected into it,
    resolves and leaves the disk as it was. *)
Theorem remove_of_absent_folder (k : ConfigurationKey) (ops : list Op) (s0 : State) :
  let s := run ops s0 in
  let p := folder_location (handle_of (cache s) k) in
  nothing_below (disk (world s0)) p = true →
  no_file_along (disk (world s0)) [] p = true →
  clear_of p ops s0 = true →
  next_injected (world s) = None →
  nothing_below (disk (world s)) p = true
  ∧ fst (remove k s) = Resolved tt
  ∧ disk (world (snd (remove k s))) = disk (world s).
Proof.
  intros s p Hnb Hnf Hcl Hq.
  destruct (absent_run p ops s0 Hnb Hnf Hcl) as [Hnb' Hnf']. fold s in Hnb', Hnf'.
  split; [done|]. rewrite remove_eq. simpl. by apply remove_absent.
Qed.

Lemma remove_of_absent_folder_witness :
  let env := mkEnv "/home/user/data" in
  let other := mkKey "folder" "1f2e3d" in
  let k := mkKey "workspaces" "77aa" in
  let s0 := start env (mkWorld ∅ []) in
  let ops := [OpWrite other (js "{ settings }"); OpRead k; OpRemove other;
              OpWrite other (js "{}")] in
  let s := run ops s0 in
  let p := folder_location (handle_of (cache s) k) in
  nothing_below (disk (world s0)) p = true
  ∧ no_file_along (disk (world s0)) [] p = true
  ∧ clear_of p ops s0 = true
  ∧ next_injected (world s) = None
  ∧ fst (remove k s) = Resolved tt
  ∧ disk (world (snd (remove k s))) = disk (world s).
Proof.
  intros env other k s0 ops s p.
  assert (H1 : nothing_below (disk (world s0)) p = true) by (vm_compute; reflexivity).
  assert (H2 : no_file_along (disk (world s0)) [] p = true) by (vm_compute; reflexivity).
  assert (H3 : clear_of p ops s0 = true) by (vm_compute; reflexivity).
  assert (H4 : next_injected (world s) = None) by (vm_compute; reflexivity).
  split; [exact H1|]. split; [exact H2|]. split; [exact H3|]. split; [exact H4|].
  exact (proj2 (remove_of_absent_folder k ops s0 H1 H2 H3 H4)).
Defined.

(** C10. The directory of a key is the join of the user-data directory,
    the fixed name [CachedConfigurations], the key's type and the key's
    identifier; the file is the join of that directory and a file name
    chosen by the type alone: [workspace.json] for the type [workspaces],
    [configuration.json] for every other type, so the two kinds of key end
    in different file names, directly below the key's directory. *)
Theorem storage_path_of_key (k : ConfigurationKey) (env : INativeEnvironmentService) :
  let h := CachedConfiguration.new k env in
  CachedConfiguration.cachedConfigurationFolderPath h
    = join [userDataPath env; "CachedConfigurations"; type k; key k]
  ∧ CachedConfiguration.cachedConfigurationFilePath h
    = join [CachedConfiguration.cachedConfigurationFolderPath h;
            CachedConfiguration.fileName (type k)]
  ∧ file_location h = folder_location h ++ [CachedConfiguration.fileName (type k)]
  ∧ CachedConfiguration.fileName (type k)
    = (if decide (type k = "workspaces") then "workspace.json" else "configuration.json")
  ∧ ∀ k' : ConfigurationKey,
      type k = "workspaces" → type k' ≠ "workspaces" →
      CachedConfiguration.fileName (type k) ≠ CachedConfiguration.fileName (type k')
      ∧ last (file_location h) ≠ last (file_location (CachedConfiguration.new k' env)).
Proof.
  simpl. split; [done|]. split; [done|]. split; [apply file_location_new|].
  split; [done|]. intros k' Hk Hk'.
  rewrite !file_location_new, !last_snoc.
  unfold CachedConfiguration.fileName.
  rewrite decide_True by done. rewrite decide_False by done. done.
Qed.

(* ===================================================================== *)
(** * Further properties *)
(* ===================================================================== *)

(** The cache against its reference behaviour.  In an environment that
    injects no error, on storage usable for a key, a history of operations
    on the key and on keys independent of it leaves stored for the key what
    the reference behaviour says (the encoding of the last content written
    and not removed since, else the bytes that were there at the start), a
    read resolves with what these bytes decode to (the empty string when
    there are none), and any further write of the key is carried out. *)
Theorem quiet_cache_follows_reference (env : INativeEnvironmentService) (w : World)
    (k : ConfigurationKey) (ops : list Op) :
  no_faults w = true →
  usable (disk w) (CachedConfiguration.new k env) = true →
  forallb (allowed env k) ops = true →
  let s := run ops (start env w) in
  let expected :=
    denote_all k ops (content_at (disk w) (file_location (CachedConfiguration.new k env))) in
  stored_text s k = expected
  ∧ fst (read k s) = Resolved (from_option Buffer.toString [] expected)
  ∧ ∀ content, carried_out k content s = true.
Proof.
  intros Hf Hu Hal s expected.
  pose proof (follows_run env k ops _ _ (follows_start env k w Hf Hu) Hal) as Hfol.
  fold s expected in Hfol. split; [|split].
  - destruct Hfol as (Htr & _ & _ & Hc). unfold stored_text.
    by rewrite (tracked_handle env k _ Htr).
  - by apply (follows_read env k).
  - intros content. by eapply follows_carried_out.
Qed.

Lemma quiet_cache_follows_reference_witness :
  let env := mkEnv "/home/user/data" in
  let k := mkKey "folder" "1f2e3d" in
  let other := mkKey "workspaces" "77aa" in
  let w := mkWorld {[ ["home"] := Dir; ["home"; "user"] := Dir ]} [] in
  let ops := [OpWrite k (js "first"); OpWrite other (js "w1"); OpRemove k; OpRead k;
              OpWrite k (js "second"); OpRemove other] in
  no_faults w = true
  ∧ usable (disk w) (CachedConfiguration.new k env) = true
  ∧ forallb (allowed env k) ops = true
  ∧ fst (read k (run ops (start env w))) = Resolved (js "second").
Proof.
  intros env k other w ops.
  assert (H1 : no_faults w = true) by reflexivity.
  assert (H2 : usable (disk w) (CachedConfiguration.new k env) = true)
    by (vm_compute; reflexivity).
  assert (H3 : forallb (allowed env k) ops = true) by (vm_compute; reflexivity).
  split; [exact H1|]. split; [exact H2|]. split; [exact H3|].
  etrans; [exact (proj1 (proj2 (quiet_cache_follows_reference env w k ops H1 H2 H3)))|].
  by vm_compute.
Defined.

(** The round trip in terms of keys.  Take a history in which every
    operation is on the key itself or on a key independent of it.  When a
    write of the key is carried out and no later operation of the history
    writes or removes the key, a read of the key that no injected error
    hits resolves with the content of that write as it comes back from its
    UTF-8 encoding: with exactly that content when it is a well-formed
    string. *)
Theorem independent_history_round_trip (env : INativeEnvironmentService) (w : World)
    (k : ConfigurationKey) (content : jsstring) (before after : list Op) :
  let s := run before (start env w) in
  let s' := run after (snd (write k content s)) in
  forallb (allowed env k) (before ++ after) = true →
  forallb (keeps k) after = true →
  carried_out k content s = true →
  next_injected (world s') = None →
  fst (read k s') = Resolved (Buffer.toString (Buffer.from_string content))
  ∧ (well_formed content = true → fst (read k s') = Resolved content).
Proof.
  intros s s' Hal Hk Hco Hq. rewrite forallb_app in Hal.
  apply andb_true_iff in Hal as [Hb Ha].
  assert (Htr : tracked env k (cache s)) by by apply tracked_run; [apply tracked_new|].
  destruct (carried_out_stores k content s Hco) as (_ & _ & Hst).
  rewrite (tracked_handle env k _ Htr) in Hst.
  assert (Htr1 : tracked env k (cache (snd (write k content s)))).
  { rewrite write_eq. simpl. apply tracked_getCachedConfiguration; [done|].
    by rewrite bool_decide_eq_true_2. }
  assert (Htr' : tracked env k (cache s')) by by apply tracked_run.
  assert (Hread : fst (read k s')
                  = Resolved (Buffer.toString (Buffer.from_string content))).
  { rewrite read_stored; [| |done].
    - unfold stored_text. rewrite (tracked_handle env k _ Htr').
      subst s'. rewrite kept_run by done. by rewrite Hst.
    - rewrite (tracked_handle env k _ Htr'). apply file_plain_new. }
  split; [done|]. intros Hwf. by rewrite Hread, toString_from_string.
Qed.

Lemma independent_history_round_trip_witness :
  let env := mkEnv "/home/user/data" in
  let k := mkKey "folder" "1f2e3d" in
  let other := mkKey "workspaces" "77aa" in
  let w := mkWorld ∅ [None; Some EACCES] in
  let before := [OpWrite k (js "first"); OpWrite other (js "w1"); OpRemove k] in
  let after := [OpRead k; OpWrite other (js "w2"); OpRemove other] in
  let s := run before (start env w) in
  let s' := run after (snd (write k (js "second") s)) in
  forallb (allowed env k) (before ++ after) = true
  ∧ forallb (keeps k) after = true
  ∧ carried_out k (js "second") s = true
  ∧ next_injected (world s') = None
  ∧ well_formed (js "second") = true
  ∧ fst (read k s') = Resolved (js "second").
Proof.
  intros env k other w before after s s'.
  assert (H1 : forallb (allowed env k) (before ++ after) = true)
    by (vm_compute; reflexivity).
  assert (H2 : forallb (keeps k) after = true) by (vm_compute; reflexivity).
  assert (H3 : carried_out k (js "second") s = true) by (vm_compute; reflexivity).
  assert (H4 : next_injected (world s') = None) by (vm_compute; reflexivity).
  assert (H5 : well_formed (js "second") = true) by reflexivity.
  split; [exact H1|]. split; [exact H2|]. split; [exact H3|]. split; [exact H4|].
  split; [exact H5|].
  exact (proj2 (independent_history_round_trip env w k (js "second") before after
                  H1 H2 H3 H4) H5).
Defined.

(** The handle a key resolves to is created on the first access and
    retained in the handle map: after the first operation on a key, the
    map holds under the key's string the handle that operation resolved
    the key to, every later state of the cache still holds that handle
    there, and resolving the key again returns it and leaves the cache
    object as it is. *)
Theorem handle_is_retained (o : Op) (ops : list Op) (s : State) :
  let h := handle_of (cache s) (op_key o) in
  let c := cache (run ops (exec o s)) in
  ConfigurationCache.cachedConfigurations (cache (exec o s))
    !! ConfigurationCache.composite (op_key o) = Some h
  ∧ ConfigurationCache.cachedConfigurations c
      !! ConfigurationCache.composite (op_key o) = Some h
  ∧ ConfigurationCache.getCachedConfiguration (op_key o) c = (h, c)
  ∧ (ConfigurationCache.cachedConfigurations (cache s)
       !! ConfigurationCache.composite (op_key o) = None →
     h = CachedConfiguration.new (op_key o)
           (ConfigurationCache.environmentService (cache s))).
Proof.
  intros h c.
  assert (Hfirst : ConfigurationCache.cachedConfigurations (cache (exec o s))
                     !! ConfigurationCache.composite (op_key o) = Some h).
  { rewrite exec_cache, getCachedConfiguration_lookup. by rewrite decide_True. }
  assert (Hlater : ConfigurationCache.cachedConfigurations c
                     !! ConfigurationCache.composite (op_key o) = Some h)
    by by apply memoized_forever.
  split; [done|]. split; [done|]. split.
  - by apply handle_of_memoized.
  - intros Hnone. subst h. by rewrite handle_of_eq, Hnone.
Qed.

(** [createCachedFolder] never rejects, whatever the disk holds and
    whatever the environment injects, and it changes no stored text. *)
Theorem createCachedFolder_never_rejects (h : CachedConfiguration.t) (w : World) :
  ∃ (created : bool) (w' : World),
    CachedConfiguration.createCachedFolder h w = (Resolved created, w')
    ∧ ∀ q, content_at (disk w') q = content_at (disk w) q.
Proof.
  destruct (createCachedFolder_run h w) as (created & w' & Hrun & Hent & _).
  exists created, w'. split; [done|]. intros q. apply content_at_eq.
  destruct (Hent q) as [?|(? & ? & _)]; auto.
Qed.

(** [read] leaves the disk as it is. *)
Theorem read_leaves_disk (k : ConfigurationKey) (s : State) :
  disk (world (snd (read k s))) = disk (world s).
Proof. rewrite read_eq. simpl. apply read_disk. Qed.

(** [remove] and the other keys.  A removal, however it settles, leaves a
    key that is memoized under another string, and whose file does not lie
    at or below the removed directory, with its handle and with the text
    stored for it. *)
Theorem remove_leaves_other_keys (k1 k2 : ConfigurationKey) (s : State) :
  ConfigurationCache.composite k1 ≠ ConfigurationCache.composite k2 →
  ¬ folder_location (handle_of (cache s) k1) `prefix_of` file_location (handle_of (cache s) k2) →
  handle_of (cache (snd (remove k1 s))) k2 = handle_of (cache s) k2
  ∧ stored_text (snd (remove k1 s)) k2 = stored_text s k2.
Proof.
  intros Hcomp Hloc. rewrite remove_eq. simpl.
  rewrite handle_of_other by done. split; [done|].
  unfold stored_text. simpl. rewrite handle_of_other by done.
  by apply remove_content_elsewhere.
Qed.

Lemma remove_leaves_other_keys_witness :
  let env := mkEnv "/home/user/data" in
  let k1 := mkKey "folder" "1f2e3d" in
  let k2 := mkKey "workspaces" "77aa" in
  let s := run [OpWrite k1 (js "one"); OpWrite k2 (js "two")] (start env (mkWorld ∅ [])) in
  ConfigurationCache.composite k1 ≠ ConfigurationCache.composite k2
  ∧ ¬ folder_location (handle_of (cache s) k1)
      `prefix_of` file_location (handle_of (cache s) k2)
  ∧ fst (remove k1 s) = Resolved tt
  ∧ stored_text (snd (remove k1 s)) k1 = None
  ∧ stored_text (snd (remove k1 s)) k2 = Some "two".
Proof.
  intros env k1 k2 s.
  assert (H1 : ConfigurationCache.composite k1 ≠ ConfigurationCache.composite k2)
    by (vm_compute; discriminate).
  assert (H2 : ¬ folder_location (handle_of (cache s) k1)
                 `prefix_of` file_location (handle_of (cache s) k2)).
  { apply (bool_decide_eq_false_1 _). vm_compute. reflexivity. }
  split; [exact H1|]. split; [exact H2|].
  split; [by vm_compute|]. split; [by vm_compute|].
  rewrite (proj2 (remove_leaves_other_keys k1 k2 s H1 H2)). by vm_compute.
Defined.

(** A removal takes the keys below it along.  When [remove] of a key
    resolves, every key whose file lies at or below that key's directory
    has no stored text left, and a read of it resolves with the empty
    string.  A key of the same type with an empty identifier is such a key:
    its directory is the one all keys of the type are stored under. *)
Theorem remove_clears_keys_below (k1 k2 : ConfigurationKey) (s : State) :
  let s' := snd (remove k1 s) in
  fst (remove k1 s) = Resolved tt →
  folder_location (handle_of (cache s) k1) `prefix_of` file_location (handle_of (cache s') k2) →
  stored_text s' k2 = None ∧ fst (read k2 s') = Resolved [].
Proof.
  intros s' Hres Hp.
  assert (Hst : stored_text s' k2 = None).
  { unfold stored_text. revert Hres Hp. subst s'. rewrite remove_eq. simpl.
    intros Hres Hp.
    destruct (CachedConfiguration.remove (handle_of (cache s) k1) (world s))
      as [r w'] eqn:Hr.
    simpl in *. subst r.
    pose proof (remove_clears_below _ _ _ _ Hr Hp) as Hgone.
    unfold content_at, entry_at. rewrite Hgone. by destruct (file_location _). }
  split; [done|]. rewrite read_eq. simpl. by apply read_absent.
Qed.

Lemma remove_clears_keys_below_witness :
  let env := mkEnv "/home/user/data" in
  let all := mkKey "folder" "" in
  let k := mkKey "folder" "1f2e3d" in
  let s := run [OpWrite k (js "{ settings }")] (start env (mkWorld ∅ [])) in
  fst (read k s) = Resolved (js "{ settings }")
  ∧ fst (remove all s) = Resolved tt
  ∧ folder_location (handle_of (cache s) all)
      `prefix_of` file_location (handle_of (cache (snd (remove all s))) k)
  ∧ fst (read k (snd (remove all s))) = Resolved [].
Proof.
  intros env all k s.
  assert (H1 : fst (remove all s) = Resolved tt) by (vm_compute; reflexivity).
  assert (H2 : folder_location (handle_of (cache s) all)
                 `prefix_of` file_location (handle_of (cache (snd (remove all s))) k)).
  { apply (bool_decide_eq_true_1 _). vm_compute. reflexivity. }
  split; [by vm_compute|]. split; [exact H1|]. split; [exact H2|].
  exact (proj2 (remove_clears_keys_below all k s H1 H2)).
Defined.

(** What [remove] does to the disk, location by location: an entry is
    left as it was, or it is gone and lay at or below the key's directory;
    nothing is created.  When the removal resolves, nothing is left at or
    below the directory. *)
Theorem remove_footprint (k : ConfigurationKey) (s : State) (q : location) :
  let h := handle_of (cache s) k in
  let d := disk (world s) in
  let d' := disk (world (snd (remove k s))) in
  (d' !! q = d !! q ∨ (d' !! q = None ∧ folder_location h `prefix_of` q))
  ∧ (fst (remove k s) = Resolved tt → folder_location h `prefix_of` q → d' !! q = None).
Proof.
  simpl. rewrite remove_eq. simpl. split; [apply remove_entries|].
  destruct (CachedConfiguration.remove _ (world s)) as [r w'] eqn:Hr. simpl.
  intros -> Hp. by apply (remove_clears_below _ _ _ _ Hr).
Qed.

(** What [write] does to the disk, location by location, however it
    settles: an entry is left as it was, or it is a new directory on the
    way to the key's directory, or it is the key's file holding the
    encoding of the content given.  Nothing is deleted and no other file is
    changed. *)
Theorem write_footprint (k : ConfigurationKey) (content : jsstring) (s : State)
    (q : location) :
  let h := handle_of (cache s) k in
  let d := disk (world s) in
  let d' := disk (world (snd (write k content s))) in
  d' !! q = d !! q
  ∨ (d !! q = None ∧ d' !! q = Some Dir ∧ q `prefix_of` folder_location h)
  ∨ (q = file_location h ∧ d' !! q = Some (File (Buffer.from_string content))).
Proof. simpl. rewrite write_eq. simpl. apply save_entries. Qed.

(** The handle map only grows, by one memoization string per key used:
    after a history its strings are those it had plus the strings of the
    history's keys, whatever the operations were and however they settled.
    [remove] in particular does not drop the handle of the key it removes. *)
Theorem handle_map_domain (ops : list Op) (s : State) :
  dom (ConfigurationCache.cachedConfigurations (cache (run ops s)))
  = dom (ConfigurationCache.cachedConfigurations (cache s))
    ∪ list_to_set ((λ o, ConfigurationCache.composite (op_key o)) <$> ops).
Proof.
  revert s. induction ops as [|o ops IH]; intros s; simpl.
  - by rewrite union_empty_r_L.
  - rewrite IH, exec_cache.
    assert (Hd : dom (ConfigurationCache.cachedConfigurations
                        (snd (ConfigurationCache.getCachedConfiguration (op_key o) (cache s))))
                 = dom (ConfigurationCache.cachedConfigurations (cache s))
                   ∪ {[ ConfigurationCache.composite (op_key o) ]}).
    { apply set_eq. intros str. rewrite elem_of_union, !elem_of_dom, elem_of_singleton.
      rewrite getCachedConfiguration_lookup. case_decide as Hs.
      - split; [by right|by eauto].
      - split; [by left|]. by intros [?|?]. }
    rewrite Hd. by rewrite <- (assoc_L (∪)).
Qed.

(** Keys whose type holds no [":"] have a handle of their own.  After a
    history over such keys, each such key resolves to the handle the
    constructor builds for that very key, and no other such key shares its
    memoization string. *)
Theorem colon_free_keys_own_handles (env : INativeEnvironmentService) (w : World)
    (ops : list Op) (k : ConfigurationKey) :
  forallb (λ o, colon_free (op_key o)) ops = true → colon_free k = true →
  handle_of (cache (run ops (start env w))) k = CachedConfiguration.new k env
  ∧ ∀ k', colon_free k' = true → k' ≠ k →
          ConfigurationCache.composite k' ≠ ConfigurationCache.composite k.
Proof.
  intros Hops Hk. split.
  - apply owned_handle; [|done]. apply owned_run; [apply owned_new|done].
  - intros k' Hk' Hne Heq. by apply Hne, composite_inj.
Qed.

Lemma colon_free_keys_own_handles_witness :
  let env := mkEnv "/home/user/data" in
  let k := mkKey "folder" "b:c" in
  let ops := [OpWrite (mkKey "folder" "b") (js "one"); OpRead (mkKey "workspaces" "b:c")] in
  forallb (λ o, colon_free (op_key o)) ops = true
  ∧ colon_free k = true
  ∧ handle_of (cache (run ops (start env (mkWorld ∅ [])))) k
    = CachedConfiguration.new k env.
Proof.
  intros env k ops.
  assert (H1 : forallb (λ o, colon_free (op_key o)) ops = true) by reflexivity.
  assert (H2 : colon_free k = true) by reflexivity.
  split; [exact H1|]. split; [exact H2|].
  exact (proj1 (colon_free_keys_own_handles env (mkWorld ∅ []) ops k H1 H2)).
Defined.

(** The handle map carries no state of its own.  After a history over
    keys whose type holds no [":"], a fresh cache over the same environment
    and the same world settles every operation on such a key as the old
    cache does and leaves the same world: what was stored through one cache
    object is what the next one reads. *)
Theorem fresh_cache_agrees (env : INativeEnvironmentService) (w : World)
    (ops : list Op) (k : ConfigurationKey) :
  let s := run ops (start env w) in
  let fresh := start env (world s) in
  forallb (λ o, colon_free (op_key o)) ops = true → colon_free k = true →
  (fst (read k fresh) = fst (read k s)
   ∧ world (snd (read k fresh)) = world (snd (read k s)))
  ∧ (∀ content, fst (write k content fresh) = fst (write k content s)
                ∧ world (snd (write k content fresh)) = world (snd (write k content s)))
  ∧ (fst (remove k fresh) = fst (remove k s)
     ∧ world (snd (remove k fresh)) = world (snd (remove k s))).
Proof.
  intros s fresh Hops Hk.
  assert (Hh : handle_of (cache s) k = CachedConfiguration.new k env)
    by by apply owned_handle; [apply owned_run; [apply owned_new|]|].
  assert (Hf : handle_of (cache fresh) k = CachedConfiguration.new k env)
    by by apply owned_handle; [apply owned_new|].
  split; [|split]; [|intros content|];
    rewrite ?read_eq, ?write_eq, ?remove_eq; cbn [fst snd world]; by rewrite Hh, Hf.
Qed.

Lemma fresh_cache_agrees_witness :
  let env := mkEnv "/home/user/data" in
  let k := mkKey "workspaces" "77aa" in
  let ops := [OpWrite k (js "{ folders }"); OpRead (mkKey "folder" "1f2e3d")] in
  let s := run ops (start env (mkWorld ∅ [])) in
  forallb (λ o, colon_free (op_key o)) ops = true
  ∧ colon_free k = true
  ∧ fst (read k (start env (world s))) = Resolved (js "{ folders }").
Proof.
  intros env k ops s.
  assert (H1 : forallb (λ o, colon_free (op_key o)) ops = true) by reflexivity.
  assert (H2 : colon_free k = true) by reflexivity.
  split; [exact H1|]. split; [exact H2|].
  etrans; [exact (proj1 (proj1 (fresh_cache_agrees env (mkWorld ∅ []) ops k H1 H2)))|].
  by vm_compute.
Defined.

(** Keys made of plain names have storage of their own.  The file of
    such a key is [userDataPath/CachedConfigurations/type/key/<file name>],
    and two different such keys are memoized under different strings, keep
    their directories apart from each other (neither at or below the
    other), and keep different files. *)
Theorem plain_keys_have_own_storage (env : INativeEnvironmentService)
    (k k' : ConfigurationKey) :
  plain_key k = true → plain_key k' = true → k ≠ k' →
  ConfigurationCache.composite k ≠ ConfigurationCache.composite k'
  ∧ file_location (CachedConfiguration.new k env)
    = resolve (userDataPath env)
      ++ ["CachedConfigurations"; type k; key k; CachedConfiguration.fileName (type k)]
  ∧ apart (folder_location (CachedConfiguration.new k env))
          (folder_location (CachedConfiguration.new k' env)) = true
  ∧ file_location (CachedConfiguration.new k env)
    ≠ file_location (CachedConfiguration.new k' env).
Proof.
  intros Hk Hk' Hne.
  pose proof (plain_independent env k k' Hk Hk' Hne) as Hind.
  apply andb_true_iff in Hind as [Hc Hap]. apply bool_decide_eq_true in Hc.
  split; [done|]. split; [|split; [done|]].
  - unfold plain_key in Hk. rewrite !andb_true_iff in Hk. destruct Hk as [[Ht _] Hkk].
    rewrite file_location_new, folder_location_plain by done.
    by rewrite <- app_assoc.
  - eapply apart_file_locations; [apply file_location_new|apply file_location_new|done].
Qed.

Lemma plain_keys_have_own_storage_witness :
  let env := mkEnv "/home/user/data" in
  let k := mkKey "folder" "1f2e3d" in
  let k' := mkKey "workspaces" "1f2e3d" in
  plain_key k = true ∧ plain_key k' = true ∧ k ≠ k'
  ∧ file_location (CachedConfiguration.new k env)
    ≠ file_location (CachedConfiguration.new k' env).
Proof.
  intros env k k'.
  assert (H1 : plain_key k = true) by reflexivity.
  assert (H2 : plain_key k' = true) by reflexivity.
  assert (H3 : k ≠ k') by discriminate.
  split; [exact H1|]. split; [exact H2|]. split; [exact H3|].
  exact (proj2 (proj2 (proj2 (plain_keys_have_own_storage env k k' H1 H2 H3)))).
Defined.

(** Operations on keys made of plain names do not interfere.  After a
    history over such keys, an operation on one of them, however it
    settles and whatever the environment injects, leaves every other such
    key with its own handle and with the text stored for it. *)
Theorem plain_keys_do_not_interfere (env : INativeEnvironmentService) (w : World)
    (ops : list Op) (o : Op) (k : ConfigurationKey) :
  let s := run ops (start env w) in
  forallb (λ o, plain_key (op_key o)) ops = true →
  plain_key (op_key o) = true → plain_key k = true → op_key o ≠ k →
  handle_of (cache s) k = CachedConfiguration.new k env
  ∧ handle_of (cache (exec o s)) k = CachedConfiguration.new k env
  ∧ stored_text (exec o s) k = stored_text s k.
Proof.
  intros s Hops Ho Hk Hne.
  assert (Htr : tracked env k (cache s)) by by apply plain_tracked.
  assert (Hal : allowed env k o = true) by by apply plain_allowed.
  assert (Htr' : tracked env k (cache (exec o s))) by by apply tracked_exec.
  split; [by apply tracked_handle|]. split; [by apply tracked_handle|].
  unfold stored_text. rewrite !(tracked_handle env k) by done.
  apply kept_exec; [done|done|].
  destruct o; simpl in *; [done| |]; by apply bool_decide_eq_true.
Qed.

Lemma plain_keys_do_not_interfere_witness :
  let env := mkEnv "/home/user/data" in
  let k := mkKey "folder" "1f2e3d" in
  let other := mkKey "folder" "1f2e3d0" in
  let w := mkWorld ∅ [None; None; None; Some EIO] in
  let ops := [OpWrite k (js "mine"); OpWrite other (js "theirs")] in
  let s := run ops (start env w) in
  forallb (λ o, plain_key (op_key o)) ops = true
  ∧ plain_key (op_key (OpRemove other)) = true
  ∧ plain_key k = true
  ∧ op_key (OpRemove other) ≠ k
  ∧ stored_text s k = Some "mine"
  ∧ stored_text (exec (OpRemove other) s) k = Some "mine".
Proof.
  intros env k other w ops s.
  assert (H1 : forallb (λ o, plain_key (op_key o)) ops = true) by reflexivity.
  assert (H2 : plain_key (op_key (OpRemove other)) = true) by reflexivity.
  assert (H3 : plain_key k = true) by reflexivity.
  assert (H4 : op_key (OpRemove other) ≠ k) by discriminate.
  assert (H5 : stored_text s k = Some "mine") by (vm_compute; reflexivity).
  split; [exact H1|]. split; [exact H2|]. split; [exact H3|]. split; [exact H4|].
  split; [exact H5|]. rewrite <- H5.
  exact (proj2 (proj2 (plain_keys_do_not_interfere env w ops (OpRemove other) k
                         H1 H2 H3 H4))).
Defined.



(** A failed existence check does not stop a write.  When the
    environment injects an error into the existence check of
    [createCachedFolder] and none into the two calls after it, on storage
    usable for the key, the directory is created (or found) by [mkdirp]
    and the encoding of the content is stored. *)
Theorem write_survives_failed_existence_check (env : INativeEnvironmentService)
    (w : World) (ops : list Op) (k : ConfigurationKey) (content : jsstring)
    (e : errno) (fs : list (option errno)) :
  let s := run ops (start env w) in
  faults (world s) = Some e :: fs →
  calm 2 fs = true →
  usable (disk (world s)) (handle_of (cache s) k) = true →
  fst (write k content s) = Resolved tt
  ∧ stored_text (snd (write k content s)) k = Some (Buffer.from_string content).
Proof.
  intros s Hfs Hcalm Hu.
  assert (Hb : built env (cache s)) by apply built_run, built_new.
  destruct (handle_of_built_file env (cache s) k Hb) as [name Hfile].
  pose proof (handle_of_built_plain env (cache s) k Hb) as Hplain.
  assert (Hco : carried_out k content s = true).
  { unfold carried_out. destruct (world s) as [d fs0] eqn:Hw. simpl in Hfs, Hu. subst fs0.
    destruct (save_after_failed_check _ name d e fs content Hfile Hplain Hcalm Hu)
      as (w1 & -> & Hwr).
    by apply bool_decide_eq_true. }
  destruct (carried_out_stores k content s Hco) as (Hres & Hh & Hst).
  split; [done|]. unfold stored_text. by rewrite Hh.
Qed.

Lemma write_survives_failed_existence_check_witness :
  let env := mkEnv "/home/user/data" in
  let k := mkKey "folder" "1f2e3d" in
  let w := mkWorld ∅ [None; None; None; Some EACCES] in
  let s := run [OpWrite k (js "old")] (start env w) in
  stored_text s k = Some "old"
  ∧ faults (world s) = [Some EACCES]
  ∧ calm 2 [] = true
  ∧ usable (disk (world s)) (handle_of (cache s) k) = true
  ∧ fst (write k (js "new") s) = Resolved tt
  ∧ stored_text (snd (write k (js "new") s)) k = Some "new"
  ∧ fst (read k (snd (write k (js "new") s))) = Resolved (js "new").
Proof.
  intros env k w s.
  assert (H1 : faults (world s) = Some EACCES :: []) by (vm_compute; reflexivity).
  assert (H2 : calm 2 [] = true) by reflexivity.
  assert (H3 : usable (disk (world s)) (handle_of (cache s) k) = true)
    by (vm_compute; reflexivity).
  split; [by vm_compute|]. split; [exact H1|]. split; [exact H2|]. split; [exact H3|].
  destruct (write_survives_failed_existence_check env w [OpWrite k (js "old")] k
              (js "new") EACCES [] H1 H2 H3) as [Hres Hst].
  split; [exact Hres|]. split; [exact Hst|]. by vm_compute.
Defined.

(** A regular file at the location of the key's directory.  When the
    directory path does not end with a separator, the existence check
    does not tell the file from a directory: if it runs it reports [true],
    the overwrite is attempted and rejects, and so does [write].  When the
    path ends with a separator the file does not answer to it, [mkdirp]
    fails on the file, and the write is skipped, resolving; so it is when
    an error is injected into the existence check.  In every case no
    stored text changes. *)
Theorem write_with_file_at_folder (env : INativeEnvironmentService)
    (w : World) (ops : list Op) (k : ConfigurationKey) (content : jsstring) (c : string) :
  let s := run ops (start env w) in
  let h := handle_of (cache s) k in
  content_at (disk (world s)) (folder_location h) = Some c →
  (next_injected (world s) = None →
   dir_only (CachedConfiguration.cachedConfigurationFolderPath h) = false →
   ∃ err, fst (write k content s) = Rejected err)
  ∧ (next_injected (world s) = None →
     dir_only (CachedConfiguration.cachedConfigurationFolderPath h) = true →
     fst (write k content s) = Resolved tt)
  ∧ (next_injected (world s) ≠ None → fst (write k content s) = Resolved tt)
  ∧ ∀ q, content_at (disk (world (snd (write k content s)))) q
         = content_at (disk (world s)) q.
Proof.
  intros s h Hc.
  assert (Hb : built env (cache s)) by apply built_run, built_new.
  destruct (handle_of_built_file env (cache s) k Hb) as [name Hfile].
  destruct (save_file_at_folder _ name (world s) c content Hfile Hc) as [Hout Hdisk].
  rewrite write_eq. simpl. fold h in Hout, Hdisk |- *. rewrite Hout.
  split; [|split; [|split; [|done]]].
  - intros -> ->. clear Hout. destruct (next_injected _) as [e1|]; [by eexists|].
    destruct (entry_at _ _) as [[?|]|]; by eexists.
  - by intros -> ->.
  - by destruct (next_injected (world s)).
Qed.

Lemma write_with_file_at_folder_witness :
  let env := mkEnv "/home/user/data" in
  let k := mkKey "folder" "1f2e3d" in
  let slashed := mkKey "folder" "1f2e3d/" in
  let d : Disk := {[ ["home"] := Dir; ["home"; "user"] := Dir;
                     ["home"; "user"; "data"] := Dir;
                     ["home"; "user"; "data"; "CachedConfigurations"] := Dir;
                     ["home"; "user"; "data"; "CachedConfigurations"; "folder"] := Dir;
                     ["home"; "user"; "data"; "CachedConfigurations"; "folder"; "1f2e3d"]
                       := File "stray" ]} in
  tree_ok d = true
  ∧ content_at d (folder_location (CachedConfiguration.new k env)) = Some "stray"
  ∧ content_at d (folder_location (CachedConfiguration.new slashed env)) = Some "stray"
  ∧ (∃ err, fst (write k (js "text") (start env (mkWorld d []))) = Rejected err)
  ∧ fst (write slashed (js "text") (start env (mkWorld d []))) = Resolved tt
  ∧ fst (write k (js "text") (start env (mkWorld d [Some EIO]))) = Resolved tt.
Proof.
  intros env k slashed d.
  assert (H1 : ∀ k' fs, k' = k ∨ k' = slashed →
            content_at (disk (world (run [] (start env (mkWorld d fs)))))
              (folder_location (handle_of (cache (run [] (start env (mkWorld d fs)))) k'))
            = Some "stray")
    by (intros k' fs [-> | ->]; vm_compute; reflexivity).
  split; [by vm_compute|]. split; [by vm_compute|]. split; [by vm_compute|].
  split; [|split].
  - apply (proj1 (write_with_file_at_folder env (mkWorld d []) [] k (js "text") "stray"
                    (H1 k [] (or_introl eq_refl)))); reflexivity.
  - apply (proj1 (proj2 (write_with_file_at_folder env (mkWorld d []) [] slashed
                           (js "text") "stray" (H1 slashed [] (or_intror eq_refl)))));
      reflexivity.
  - apply (proj1 (proj2 (proj2 (write_with_file_at_folder env (mkWorld d [Some EIO]) [] k
                                  (js "text") "stray"
                                  (H1 k [Some EIO] (or_introl eq_refl))))));
      discriminate.
Defined.
